(** * bfs-search: a shallow embedding of the two search agents

    The repository holds two variants of one breadth-first search agent:

    - [Sim]  : [bfs-search.ts], the simulated-data variant ([agentLoop]),
               whose data source is the fixed table [SIMULATED_DATA], whose
               validator compares against [CORRECT_ANSWER] and which asks a
               language model for advice;
    - [Live] : the live-API variant ([searchAgent]), whose data source and
               validator are HTTP endpoints.

    Both keep their bookkeeping in one mutable [knowledgeBase] object; it is
    modelled by explicit state passing.  Everything outside the program (the
    HTTP endpoints, the language model, the context file) is an input of the
    model: a function from the position in the call history to the answer
    received there.  Each function also appends the calls it makes to an event
    log, so that statements about "no further call" or "at most one call" are
    statements about that log.

    Strings are sequences of 8-bit characters; [toUpperCase] and the
    whitespace class are the ASCII ones.  JavaScript [Set]s whose iteration
    order the program relies on ([INITIAL_CITIES], [INITIAL_NODES],
    [ERROR_KEYWORDS]) are lists in insertion order; the sets of the knowledge
    base, which the search only tests for membership, are [gset]s. *)

From Stdlib Require Import Ascii NArith ZArith.
From stdpp Require Import base decidable option list gmap strings.

Local Open Scope list_scope.

(** ** JavaScript string operations *)

Module JS.

(** [String.prototype.toUpperCase] on one character (ASCII). *)
Definition upperChar (c : ascii) : ascii :=
  let n := N_of_ascii c in
  if (97 <=? n)%N && (n <=? 122)%N then ascii_of_N (n - 32) else c.

Fixpoint toUpperCase (s : string) : string :=
  match s with
  | EmptyString => EmptyString
  | String c s' => String (upperChar c) (toUpperCase s')
  end.

(** The characters matched by [\s] and removed by [trim]. *)
Definition isSpace (c : ascii) : bool := Ascii.is_space c.

Fixpoint trimStart (s : string) : string :=
  match s with
  | EmptyString => EmptyString
  | String c s' => if isSpace c then trimStart s' else s
  end.

Fixpoint trimEnd (s : string) : string :=
  match s with
  | EmptyString => EmptyString
  | String c s' =>
      match trimEnd s' with
      | EmptyString => if isSpace c then EmptyString else String c EmptyString
      | t => String c t
      end
  end.

Definition trim (s : string) : string := trimEnd (trimStart s).

(** A string is truthy when it is not empty. *)
Definition truthy (s : string) : bool :=
  match s with EmptyString => false | _ => true end.

Fixpoint startsWith (s k : string) {struct k} : bool :=
  match k, s with
  | EmptyString, _ => true
  | String a k', String b s' => if decide (a = b) then startsWith s' k' else false
  | String _ _, EmptyString => false
  end.

(** [s.includes(k)]: [k] occurs in [s] as a contiguous substring. *)
Fixpoint includes (s k : string) : bool :=
  startsWith s k ||
  match s with
  | EmptyString => false
  | String _ s' => includes s' k
  end.

(** [s.split(/\s+/)]: cut [s] at every maximal run of whitespace.  [inGap]
    tells that the previous character was whitespace. *)
Fixpoint splitWs_go (s : string) (inGap : bool) : list string :=
  match s with
  | EmptyString => [EmptyString]
  | String c s' =>
      if isSpace c then
        if inGap then splitWs_go s' true
        else EmptyString :: splitWs_go s' true
      else
        match splitWs_go s' false with
        | piece :: pieces => String c piece :: pieces
        | [] => [String c EmptyString]
        end
  end.

Definition splitWs (s : string) : list string := splitWs_go s false.

(** [message.trim().split(/\s+/).filter(name => name.length > 0)] *)
Definition names_of (message : string) : list string :=
  filter (fun name => 0 < String.length name) (splitWs (trim message)).

(** [xs.includes(x)] on an array of strings. *)
Definition arrayIncludes (xs : list string) (x : string) : bool :=
  bool_decide (x ∈ xs).

End JS.

(** ** The live-API variant ([searchAgent]) *)

Module Live.

Definition INITIAL_NODES : list string := ["NodeA"; "NodeB"].

Definition ERROR_KEYWORDS : list string :=
  ["restricted"; "no data"; "anomaly"; "error"; "forbidden"].

Record KnowledgeBase := mkKB {
  entityLocations : gmap string (list string);
  locationEntities : gmap string (list string);
  visitedLocations : gset string;
  visitedEntities : gset string;
  testedTargets : gset string;
  failedQueries : gset string
}.

Definition knowledgeBase : KnowledgeBase :=
  mkKB ∅ ∅ ∅ ∅ ∅ ∅.

Inductive NodeType := location | entity.
Inductive EndpointType := entities | locations.

Record QueueNode := mkNode { type : NodeType; value : string }.

(** What [axios.post] to the data source does: it rejects, or it resolves
    with a body whose [message] may be missing ([response.data?.message]). *)
Inductive HttpResult :=
| HttpError
| HttpOk (message : option string).

(** What [axios.post] to [/validate] does ([ApiResponse]: both fields are
    optional). *)
Inductive ValidateResult :=
| ValidateError
| ValidateOk (code : option Z) (message : option string).

(** The calls of one run, in the order they happen. *)
Inductive Event :=
| CallGetData (endpoint : EndpointType) (query : string)
| HttpLookup (endpoint : EndpointType) (query : string)
| HttpValidate (target : string)
| Tested (target : string) (success : bool).

(** The outside world: the answer to a request depends on the request and
    on the number of events before it. *)
Record World := mkWorld {
  httpLookup : nat -> EndpointType -> string -> HttpResult;
  httpValidate : nat -> string -> ValidateResult
}.

(** The mutable state of a run: the global [knowledgeBase], the local
    [queue] of [searchAgent], and the event log. *)
Record State := mkState {
  kb : KnowledgeBase;
  queue : list QueueNode;
  log : list Event
}.

Definition record (e : Event) (s : State) : State :=
  mkState (kb s) (queue s) (log s ++ [e]).

Definition push (n : QueueNode) (s : State) : State :=
  mkState (kb s) (queue s ++ [n]) (log s).

Definition withKB (f : KnowledgeBase -> KnowledgeBase) (s : State) : State :=
  mkState (f (kb s)) (queue s) (log s).

Definition addFailedQuery (q : string) : State -> State :=
  withKB (fun k => mkKB (entityLocations k) (locationEntities k)
    (visitedLocations k) (visitedEntities k) (testedTargets k)
    ({[q]} ∪ failedQueries k)).

Definition addTestedTarget (t : string) : State -> State :=
  withKB (fun k => mkKB (entityLocations k) (locationEntities k)
    (visitedLocations k) (visitedEntities k) ({[t]} ∪ testedTargets k)
    (failedQueries k)).

Definition addVisitedLocation (l : string) : State -> State :=
  withKB (fun k => mkKB (entityLocations k) (locationEntities k)
    ({[l]} ∪ visitedLocations k) (visitedEntities k) (testedTargets k)
    (failedQueries k)).

Definition addVisitedEntity (e : string) : State -> State :=
  withKB (fun k => mkKB (entityLocations k) (locationEntities k)
    (visitedLocations k) ({[e]} ∪ visitedEntities k) (testedTargets k)
    (failedQueries k)).

Definition setLocationEntities (l : string) (es : list string) : State -> State :=
  withKB (fun k => mkKB (entityLocations k) (<[l:=es]> (locationEntities k))
    (visitedLocations k) (visitedEntities k) (testedTargets k)
    (failedQueries k)).

Definition setEntityLocations (e : string) (ls : list string) : State -> State :=
  withKB (fun k => mkKB (<[e:=ls]> (entityLocations k)) (locationEntities k)
    (visitedLocations k) (visitedEntities k) (testedTargets k)
    (failedQueries k)).

Definition isErrorResponse (message : string) : bool :=
  existsb (fun keyword => JS.includes message keyword) ERROR_KEYWORDS.

Definition getData (w : World) (endpoint : EndpointType) (query : string)
    (s : State) : option (list string) * State :=
  let s := record (CallGetData endpoint query) s in
  if decide (query ∈ failedQueries (kb s)) then (None, s)
  else
    let response := httpLookup w (length (log s)) endpoint query in
    let s := record (HttpLookup endpoint query) s in
    match response with
    | HttpError => (None, addFailedQuery query s)
    | HttpOk None => (None, s)
    | HttpOk (Some message) =>
        if JS.truthy message && isErrorResponse message
        then (None, addFailedQuery query s)
        else if JS.truthy message then
          let names := JS.names_of message in
          (if 0 <? length names then Some names else None, s)
        else (None, s)
    end.

Definition isSuccessResponse (r : ValidateResult) : bool :=
  match r with
  | ValidateOk (Some 0%Z) (Some message) => JS.includes message "SUCCESS:"
  | _ => false
  end.

Definition testTarget (w : World) (target : string) (s : State) : bool * State :=
  if decide (target ∈ testedTargets (kb s))
  then (false, record (Tested target false) s)
  else
    let s := addTestedTarget target s in
    let response := httpValidate w (length (log s)) target in
    let s := record (HttpValidate target) s in
    let success := isSuccessResponse response in
    (success, record (Tested target success) s).

Definition shouldTestTarget (target : string) (s : State) : bool :=
  negb (bool_decide (target ∈ testedTargets (kb s)))
  && negb (bool_decide (target ∈ INITIAL_NODES)).

Definition enqueueLocation (l : string) (s : State) : State :=
  if decide (l ∈ visitedLocations (kb s)) then s
  else addVisitedLocation l (push (mkNode location l) s).

Definition enqueueEntity (e : string) (s : State) : State :=
  if decide (e ∈ visitedEntities (kb s)) then s
  else addVisitedEntity e (push (mkNode entity e) s).

(** [for (const entity of entities) { ... }] *)
Fixpoint forEntities (es : list string) (s : State) : State :=
  match es with
  | [] => s
  | e :: rest => forEntities rest (enqueueEntity e s)
  end.

(** [for (const location of locations) { ... }]; [Some l] is the early
    [return location]. *)
Fixpoint forLocations (w : World) (ls : list string) (s : State)
    : option string * State :=
  match ls with
  | [] => (None, s)
  | l :: rest =>
      if shouldTestTarget l s then
        let '(success, s1) := testTarget w l s in
        if success then (Some l, s1)
        else forLocations w rest (enqueueLocation l s1)
      else forLocations w rest s
  end.

(** One turn of the [while] loop, after [current] has been taken off the
    queue. *)
Definition processNode (w : World) (current : QueueNode) (s : State)
    : option string * State :=
  match type current with
  | location =>
      let '(found, s1) := getData w locations (value current) s in
      match found with
      | Some es =>
          if 0 <? length es
          then (None, forEntities es (setLocationEntities (value current) es s1))
          else (None, s1)
      | None => (None, s1)
      end
  | entity =>
      let '(found, s1) := getData w entities (value current) s in
      match found with
      | Some ls =>
          if 0 <? length ls
          then forLocations w ls (setEntityLocations (value current) ls s1)
          else (None, s1)
      | None => (None, s1)
      end
  end.

(** A run either returns a string or is cut off by the fuel, which bounds
    the number of turns of the [while] loop. *)
Inductive Outcome :=
| Returned (result : string)
| OutOfFuel.

Fixpoint drain (fuel : nat) (w : World) (queueIndex : nat) (s : State)
    : Outcome * State :=
  match queue s !! queueIndex with
  | None => (Returned "No target found", s)
  | Some current =>
      match fuel with
      | 0 => (OutOfFuel, s)
      | S fuel' =>
          match processNode w current s with
          | (Some result, s') => (Returned result, s')
          | (None, s') => drain fuel' w (S queueIndex) s'
          end
      end
  end.

Definition seed (s : State) : State :=
  foldl (fun s l => addVisitedLocation l (push (mkNode location l) s))
        s INITIAL_NODES.

(** [searchAgent] started in knowledge base [k]. *)
Definition searchAgent (fuel : nat) (w : World) (k : KnowledgeBase)
    : Outcome * State :=
  drain fuel w 0 (seed (mkState k [] [])).

(** The external requests among the events. *)
Definition validated (l : list Event) : list string :=
  omap (fun e => match e with HttpValidate t => Some t | _ => None end) l.

Definition lookedUp (l : list Event) : list (EndpointType * string) :=
  omap (fun e => match e with HttpLookup ep q => Some (ep, q) | _ => None end) l.

Definition testedAt (l : list Event) : list string :=
  omap (fun e => match e with Tested t _ => Some t | _ => None end) l.

End Live.

(** ** The simulated-data variant ([agentLoop]) *)

Module Sim.

Definition CITIES_GDANSK : string := "Gdansk".
Definition CITIES_POZNAN : string := "Poznan".
Definition CITIES_SZCZECIN : string := "Szczecin".
Definition CITIES_WARSZAWA : string := "Warszawa".
Definition CITIES_WROCLAW : string := "Wroclaw".
Definition CITIES_OLSZTYN : string := "Olsztyn".

Definition INITIAL_CITIES : list string := [CITIES_GDANSK; CITIES_POZNAN].

Definition SIMULATED_DATA_people : gmap string (list string) :=
  list_to_map
    [ ("MONIKA", ["GDANSK"]);
      ("PAWEL", ["GDANSK"; "POZNAN"]);
      ("MARCIN", ["POZNAN"]);
      ("TOMASZ", ["SZCZECIN"; "POZNAN"; "WROCLAW"]);
      ("ECHO", ["GDANSK"; "POZNAN"; "WARSZAWA"; "WROCLAW"; "OLSZTYN"]);
      ("GHOST", ["SZCZECIN"; "WROCLAW"; "OLSZTYN"]) ].

Definition SIMULATED_DATA_places : gmap string (list string) :=
  list_to_map
    [ ("GDANSK", ["MONIKA"; "PAWEL"; "ECHO"]);
      ("POZNAN", ["PAWEL"; "MARCIN"; "TOMASZ"; "ECHO"]);
      ("SZCZECIN", ["TOMASZ"; "GHOST"]);
      ("WARSZAWA", ["ECHO"]);
      ("WROCLAW", ["TOMASZ"; "ECHO"; "GHOST"]);
      ("OLSZTYN", ["ECHO"; "GHOST"]) ].

Definition CORRECT_ANSWER : string := "OLSZTYN".

Record KnowledgeBase := mkKB {
  peopleLocations : gmap string (list string);
  cityPeople : gmap string (list string);
  visitedCities : gset string;
  visitedPeople : gset string;
  testedLocations : gset string;
  failedQueries : gset string;
  context : string
}.

Definition knowledgeBase : KnowledgeBase :=
  mkKB ∅ ∅ ∅ ∅ ∅ ∅ EmptyString.

Inductive NodeType := city | person.
Inductive EndpointType := people | places.

Record QueueNode := mkNode { type : NodeType; value : string }.

(** What [openai.chat.completions.create] does: it rejects, or it resolves
    with a first choice whose content may be missing. *)
Inductive ModelReply :=
| ModelError
| ModelContent (content : option string).

(** The advisor: its answer depends on the number of events before the
    call, so that every sequence of answers is some advisor. *)
Definition Advisor := nat -> ModelReply.

Inductive Event :=
| CallGetData (endpoint : EndpointType) (query : string)
| TableLookup (endpoint : EndpointType) (query : string)
| AskModel
| Tested (place : string) (success : bool).

Record State := mkState {
  kb : KnowledgeBase;
  queue : list QueueNode;
  log : list Event
}.

Definition record (e : Event) (s : State) : State :=
  mkState (kb s) (queue s) (log s ++ [e]).

Definition push (n : QueueNode) (s : State) : State :=
  mkState (kb s) (queue s ++ [n]) (log s).

Definition withKB (f : KnowledgeBase -> KnowledgeBase) (s : State) : State :=
  mkState (f (kb s)) (queue s) (log s).

Definition addFailedQuery (q : string) : State -> State :=
  withKB (fun k => mkKB (peopleLocations k) (cityPeople k) (visitedCities k)
    (visitedPeople k) (testedLocations k) ({[q]} ∪ failedQueries k) (context k)).

Definition addTestedLocation (l : string) : State -> State :=
  withKB (fun k => mkKB (peopleLocations k) (cityPeople k) (visitedCities k)
    (visitedPeople k) ({[l]} ∪ testedLocations k) (failedQueries k) (context k)).

Definition addVisitedCity (c : string) : State -> State :=
  withKB (fun k => mkKB (peopleLocations k) (cityPeople k)
    ({[c]} ∪ visitedCities k) (visitedPeople k) (testedLocations k)
    (failedQueries k) (context k)).

Definition addVisitedPerson (p : string) : State -> State :=
  withKB (fun k => mkKB (peopleLocations k) (cityPeople k) (visitedCities k)
    ({[p]} ∪ visitedPeople k) (testedLocations k) (failedQueries k) (context k)).

Definition setCityPeople (c : string) (ps : list string) : State -> State :=
  withKB (fun k => mkKB (peopleLocations k) (<[c:=ps]> (cityPeople k))
    (visitedCities k) (visitedPeople k) (testedLocations k) (failedQueries k)
    (context k)).

Definition setPeopleLocations (p : string) (ls : list string) : State -> State :=
  withKB (fun k => mkKB (<[p:=ls]> (peopleLocations k)) (cityPeople k)
    (visitedCities k) (visitedPeople k) (testedLocations k) (failedQueries k)
    (context k)).

Definition setContext (c : string) : State -> State :=
  withKB (fun k => mkKB (peopleLocations k) (cityPeople k) (visitedCities k)
    (visitedPeople k) (testedLocations k) (failedQueries k) c).

(** The table lookup never throws, so the [catch] branch of [getData] is
    not reachable and has no counterpart here. *)
Definition getData (endpoint : EndpointType) (query : string) (s : State)
    : option (list string) * State :=
  let s := record (CallGetData endpoint query) s in
  if decide (query ∈ failedQueries (kb s)) then (None, s)
  else
    let s := record (TableLookup endpoint query) s in
    let normalizedQuery := JS.toUpperCase query in
    let result :=
      match endpoint with
      | people => SIMULATED_DATA_people !! normalizedQuery
      | places => SIMULATED_DATA_places !! normalizedQuery
      end in
    match result with
    | Some names =>
        if 0 <? length names then (Some names, s)
        else (None, addFailedQuery query s)
    | None => (None, addFailedQuery query s)
    end.

Definition fallback : string := "ECHO".

Definition askModel (advisor : Advisor) (s : State) : string * State :=
  let reply := advisor (length (log s)) in
  let s := record AskModel s in
  match reply with
  | ModelContent (Some content) =>
      let result := JS.trim content in
      if JS.truthy result then (result, s) else (fallback, s)
  | ModelContent None => (fallback, s)
  | ModelError => (fallback, s)
  end.

(** [getText]: [dataFile] is the content of [data.txt], if the file exists;
    [None] is the thrown error. *)
Definition getText (dataFile : option string) (s : State) : option State :=
  match dataFile with
  | Some content =>
      if JS.truthy (JS.trim content) then Some (setContext content s) else None
  | None => None
  end.

Definition testLocation (loc : string) (s : State) : bool * State :=
  let normalizedLocation := JS.toUpperCase loc in
  if decide (normalizedLocation ∈ testedLocations (kb s))
  then (false, record (Tested loc false) s)
  else
    let s := addTestedLocation normalizedLocation s in
    if decide (normalizedLocation = CORRECT_ANSWER)
    then (true, record (Tested loc true) s)
    else (false, record (Tested loc false) s).

Definition shouldTestLocation (place : string) (s : State) : bool :=
  let normalizedPlace := JS.toUpperCase place in
  negb (bool_decide (normalizedPlace ∈ testedLocations (kb s)))
  && negb (bool_decide (place ∈ INITIAL_CITIES)).

Definition enqueueCity (c : string) (s : State) : State :=
  if decide (c ∈ visitedCities (kb s)) then s
  else addVisitedCity c (push (mkNode city c) s).

Definition enqueuePerson (p : string) (s : State) : State :=
  if decide (p ∈ visitedPeople (kb s)) then s
  else addVisitedPerson p (push (mkNode person p) s).

(** [xs.lastIndexOf(x)]; [None] is [-1]. *)
Fixpoint lastIndexOf (xs : list string) (x : string) : option nat :=
  match xs with
  | [] => None
  | y :: ys =>
      match lastIndexOf ys x with
      | Some i => Some (S i)
      | None => if decide (y = x) then Some 0 else None
      end
  end.

(** [xs.splice(start, 1)]; a start of [-1] counts from the end. *)
Definition splice1 (xs : list string) (start : option nat) : list string :=
  match start with
  | Some i => delete i xs
  | None => take (length xs - 1) xs
  end.

Definition prioritize (names : list string) (ai : string) : list string :=
  if JS.arrayIncludes names ai then
    let unshifted := ai :: names in
    splice1 unshifted (lastIndexOf unshifted ai)
  else names.

(** [for (const person of prioritizedPeople) { ... }] *)
Fixpoint forPeople (ps : list string) (s : State) : State :=
  match ps with
  | [] => s
  | p :: rest => forPeople rest (enqueuePerson p s)
  end.

(** [for (const place of places) { ... }]; [Some p] is the early
    [return place]. *)
Fixpoint forPlaces (aiLocation : string) (ps : list string) (s : State)
    : option string * State :=
  match ps with
  | [] => (None, s)
  | place :: rest =>
      if negb (bool_decide (place = aiLocation)) && shouldTestLocation place s then
        let '(success, s1) := testLocation place s in
        if success then (Some place, s1)
        else forPlaces aiLocation rest (enqueueCity place s1)
      else forPlaces aiLocation rest s
  end.

Definition processNode (advisor : Advisor) (current : QueueNode) (s : State)
    : option string * State :=
  match type current with
  | city =>
      let '(found, s1) := getData places (value current) s in
      match found with
      | Some names =>
          if 0 <? length names then
            let s2 := setCityPeople (value current) names s1 in
            let '(nextTarget, s3) := askModel advisor s2 in
            let aiPerson := JS.toUpperCase nextTarget in
            (None, forPeople (prioritize names aiPerson) s3)
          else (None, s1)
      | None => (None, s1)
      end
  | person =>
      let '(found, s1) := getData people (value current) s in
      match found with
      | Some names =>
          if 0 <? length names then
            let s2 := setPeopleLocations (value current) names s1 in
            let '(nextLocation, s3) := askModel advisor s2 in
            let aiLocation := JS.toUpperCase nextLocation in
            if JS.arrayIncludes names aiLocation && shouldTestLocation aiLocation s3
            then
              let '(success, s4) := testLocation aiLocation s3 in
              if success then (Some aiLocation, s4)
              else forPlaces aiLocation names (enqueueCity aiLocation s4)
            else forPlaces aiLocation names s3
          else (None, s1)
      | None => (None, s1)
      end
  end.

(** A run returns a string, throws (only [getText] does), or is cut off by
    the fuel, which bounds the number of turns of the [while] loop. *)
Inductive Outcome :=
| Returned (result : string)
| Threw
| OutOfFuel.

Fixpoint drain (fuel : nat) (advisor : Advisor) (queueIndex : nat) (s : State)
    : Outcome * State :=
  match queue s !! queueIndex with
  | None => (Returned "No data found", s)
  | Some current =>
      match fuel with
      | 0 => (OutOfFuel, s)
      | S fuel' =>
          match processNode advisor current s with
          | (Some result, s') => (Returned result, s')
          | (None, s') => drain fuel' advisor (S queueIndex) s'
          end
      end
  end.

Definition seedCity (c : string) (s : State) : State :=
  addVisitedCity c (push (mkNode city c) s).

Definition seed (aiCity : string) (s : State) : State :=
  if JS.arrayIncludes INITIAL_CITIES aiCity then
    foldl (fun s c => if decide (c = aiCity) then s else seedCity c s)
          (seedCity aiCity s) INITIAL_CITIES
  else foldl (fun s c => seedCity c s) s INITIAL_CITIES.

(** [agentLoop] started in knowledge base [k]. *)
Definition agentLoop (fuel : nat) (dataFile : option string)
    (advisor : Advisor) (k : KnowledgeBase) : Outcome * State :=
  match getText dataFile (mkState k [] []) with
  | None => (Threw, mkState k [] [])
  | Some s0 =>
      let '(aiSuggestion, s1) := askModel advisor s0 in
      drain fuel advisor 0 (seed (JS.toUpperCase aiSuggestion) s1)
  end.

Definition testedAt (l : list Event) : list string :=
  omap (fun e => match e with Tested t _ => Some t | _ => None end) l.

End Sim.

(** ** Auxiliary predicates used in the statements *)

(** [hasLower s]: some character of [s] is a lower-case letter. *)
Fixpoint hasLower (s : string) : bool :=
  match s with
  | EmptyString => false
  | String c s' =>
      ((97 <=? N_of_ascii c)%N && (N_of_ascii c <=? 122)%N) || hasLower s'
  end.


(** The classification of §4.2 in the specification's words: a restriction
    keyword occurs in the text whatever the letter case.  (The program's
    own test is [Live.isErrorResponse].) *)
Definition spec_isRestricted (message : string) : bool :=
  existsb (fun keyword =>
             JS.includes (JS.toUpperCase message) (JS.toUpperCase keyword))
          Live.ERROR_KEYWORDS.

(** [quiet l]: no validator call in [l] returned [true]. *)
Definition live_quiet (l : list Live.Event) : Prop :=
  Forall (fun e => match e with Live.Tested _ true => False | _ => True end) l.

Definition sim_quiet (l : list Sim.Event) : Prop :=
  Forall (fun e => match e with Sim.Tested _ true => False | _ => True end) l.

(** [live_stops r l]: if the search returned early with [r = Some c], the
    log [l] ends with the successful test of [c] and holds no other
    successful test; otherwise it holds none. *)
Definition live_stops (r : option string) (l : list Live.Event) : Prop :=
  match r with
  | Some c => ∃ pre, l = pre ++ [Live.Tested c true] ∧ live_quiet pre
  | None => live_quiet l
  end.

(** The invariant behind "at most one validation request per candidate":
    the requests made so far are pairwise different, and each is remembered
    in [testedTargets]. *)
Definition live_once (s : Live.State) : Prop :=
  NoDup (Live.validated (Live.log s)) ∧
  ∀ c, c ∈ Live.validated (Live.log s) → c ∈ Live.testedTargets (Live.kb s).

Definition sim_stops (r : option string) (l : list Sim.Event) : Prop :=
  match r with
  | Some c => ∃ pre, l = pre ++ [Sim.Tested c true] ∧ sim_quiet pre
  | None => sim_quiet l
  end.

(** The nodes that the simulated search may expand before it reaches
    [ECHO]: none of them leads to the target. *)
Definition sim_harmless (n : Sim.QueueNode) : Prop :=
  n ∈ [Sim.mkNode Sim.city "Gdansk"; Sim.mkNode Sim.city "Poznan";
       Sim.mkNode Sim.person "MONIKA"; Sim.mkNode Sim.person "PAWEL"].

(** [sim_safe s]: the target has not been tested and no query has failed. *)
Definition sim_safe (s : Sim.State) : Prop :=
  (Sim.CORRECT_ANSWER ∉ Sim.testedLocations (Sim.kb s)) ∧
  Sim.failedQueries (Sim.kb s) = ∅.

(** [sim_keeps s s']: from [s] to [s'] the queue was only appended to, no
    query failed, and the target was not tested. *)
Definition sim_keeps (s s' : Sim.State) : Prop :=
  (Sim.failedQueries (Sim.kb s') = Sim.failedQueries (Sim.kb s)) ∧
  (∃ extra, Sim.queue s' = Sim.queue s ++ extra) ∧
  (Sim.CORRECT_ANSWER ∉ Sim.testedLocations (Sim.kb s) →
   Sim.CORRECT_ANSWER ∉ Sim.testedLocations (Sim.kb s')).

(** The advisor whose every call raises a transport failure, and the one
    that always answers the fallback token. *)
Definition sim_failing : Sim.Advisor := fun _ => Sim.ModelError.

Definition sim_echoing : Sim.Advisor :=
  fun _ => Sim.ModelContent (Some Sim.fallback).

(** The identity of a queued node in the specification's data model: its
    type and its case-normalized name. *)
Definition sim_identity (n : Sim.QueueNode) : Sim.NodeType * string :=
  (Sim.type n, JS.toUpperCase (Sim.value n)).

#[global] Instance sim_NodeType_eq_dec : EqDecision Sim.NodeType.
Proof. solve_decision. Defined.

#[global] Instance sim_QueueNode_eq_dec : EqDecision Sim.QueueNode.
Proof. solve_decision. Defined.

(** A small world for the live variant: [NodeA] hosts [E1], [E1] was seen
    at [Target] and [NodeA], every other lookup fails, and only [Target]
    validates. *)
Definition live_demo_world : Live.World :=
  Live.mkWorld
    (fun _ ep q =>
       match ep with
       | Live.locations =>
           if decide (q = "NodeA") then Live.HttpOk (Some "E1")
           else Live.HttpError
       | Live.entities =>
           if decide (q = "E1") then Live.HttpOk (Some "Target  NodeA")
           else Live.HttpError
       end)
    (fun _ t =>
       if decide (t = "Target")
       then Live.ValidateOk (Some 0%Z) (Some "SUCCESS: target found")
       else Live.ValidateOk (Some 1%Z) (Some "wrong")).

(** A world whose data source answers every lookup with the same text. *)
Definition live_const_world (message : option string) : Live.World :=
  Live.mkWorld (fun _ _ _ => Live.HttpOk message)
               (fun _ _ => Live.ValidateError).

(** ** Further predicates: what a run keeps *)

(** A queued node is marked in the visited set of its type. *)
Definition live_marked (s : Live.State) (n : Live.QueueNode) : Prop :=
  match Live.type n with
  | Live.location => Live.value n ∈ Live.visitedLocations (Live.kb s)
  | Live.entity => Live.value n ∈ Live.visitedEntities (Live.kb s)
  end.

(** The queue holds no node twice and every queued node is marked. *)
Definition live_queue_ok (s : Live.State) : Prop :=
  NoDup (Live.queue s) ∧ ∀ n, n ∈ Live.queue s → live_marked s n.

(** The request that expanding a node sends to the data source:
    [getData("locations", value)] for a location, [getData("entities",
    value)] for an entity. *)
Definition live_request (n : Live.QueueNode) : Live.EndpointType * string :=
  match Live.type n with
  | Live.location => (Live.locations, Live.value n)
  | Live.entity => (Live.entities, Live.value n)
  end.

(** No starting node among the targets handed to the validator. *)
Definition live_spares_initial (l : list Live.Event) : Prop :=
  Forall (fun e =>
            match e with
            | Live.Tested t _ => t ∉ Live.INITIAL_NODES
            | Live.HttpValidate t => t ∉ Live.INITIAL_NODES
            | _ => True
            end) l.

(** [live_accepted w c l]: the log [l] ends with the validation request for
    [c] and its successful test, and the endpoint's answer to that request
    was a success response. *)
Definition live_accepted (w : Live.World) (c : string) (l : list Live.Event)
    : Prop :=
  ∃ pre, l = pre ++ [Live.HttpValidate c; Live.Tested c true] ∧
         Live.isSuccessResponse (Live.httpValidate w (length pre) c) = true.

(** [live_grows k k']: nothing was removed from the knowledge base. *)
Definition live_grows (k k' : Live.KnowledgeBase) : Prop :=
  Live.visitedLocations k ⊆ Live.visitedLocations k' ∧
  Live.visitedEntities k ⊆ Live.visitedEntities k' ∧
  Live.testedTargets k ⊆ Live.testedTargets k' ∧
  Live.failedQueries k ⊆ Live.failedQueries k' ∧
  dom (Live.entityLocations k) ⊆ dom (Live.entityLocations k') ∧
  dom (Live.locationEntities k) ⊆ dom (Live.locationEntities k').



#[global] Instance live_NodeType_eq_dec : EqDecision Live.NodeType.
Proof. solve_decision. Defined.

#[global] Instance live_EndpointType_eq_dec : EqDecision Live.EndpointType.
Proof. solve_decision. Defined.

#[global] Instance live_QueueNode_eq_dec : EqDecision Live.QueueNode.
Proof. solve_decision. Defined.

(** The lookups sent so far are, in order, requests of nodes among the
    first [i] of the queue, each at most once. *)
Definition live_lookups_ok (i : nat) (s : Live.State) : Prop :=
  Live.lookedUp (Live.log s)
    `sublist_of` (live_request <$> take i (Live.queue s)).

(** The same for the simulated variant. *)
Definition sim_marked (s : Sim.State) (n : Sim.QueueNode) : Prop :=
  match Sim.type n with
  | Sim.city => Sim.value n ∈ Sim.visitedCities (Sim.kb s)
  | Sim.person => Sim.value n ∈ Sim.visitedPeople (Sim.kb s)
  end.

(** Every node that a run of [agentLoop] can queue: the two starting
    cities as [CITIES] spells them, the six people and the six cities of
    [SIMULATED_DATA]. *)
Definition sim_universe : list Sim.QueueNode :=
  [Sim.mkNode Sim.city Sim.CITIES_GDANSK; Sim.mkNode Sim.city Sim.CITIES_POZNAN]
  ++ (Sim.mkNode Sim.person
        <$> ["MONIKA"; "PAWEL"; "MARCIN"; "TOMASZ"; "ECHO"; "GHOST"])
  ++ (Sim.mkNode Sim.city
        <$> ["GDANSK"; "POZNAN"; "SZCZECIN"; "WARSZAWA"; "WROCLAW"; "OLSZTYN"]).

(** The queue holds no node twice, every queued node is marked, and every
    queued node is one of [sim_universe]. *)
Definition sim_queue_ok (s : Sim.State) : Prop :=
  NoDup (Sim.queue s) ∧
  (∀ n, n ∈ Sim.queue s → sim_marked s n) ∧
  (∀ n, n ∈ Sim.queue s → n ∈ sim_universe).

(** The table that expanding a node reads. *)
Definition sim_table (t : Sim.NodeType) : gmap string (list string) :=
  match t with
  | Sim.city => Sim.SIMULATED_DATA_places
  | Sim.person => Sim.SIMULATED_DATA_people
  end.

Definition sim_endpoint (t : Sim.NodeType) : Sim.EndpointType :=
  match t with
  | Sim.city => Sim.places
  | Sim.person => Sim.people
  end.

(** No starting city, as [INITIAL_CITIES] spells it, was handed to
    [testLocation]. *)
Definition sim_spares_initial (l : list Sim.Event) : Prop :=
  Forall (fun e =>
            match e with
            | Sim.Tested t _ => t ∉ Sim.INITIAL_CITIES
            | _ => True
            end) l.

#[global] Instance sim_EndpointType_eq_dec : EqDecision Sim.EndpointType.
Proof. solve_decision. Defined.

(** * Properties *)

(** ** Strings *)

Section JSFacts.

Lemma startsWith_spec s k :
  JS.startsWith s k = true ↔ ∃ post, s = k +:+ post.
Proof.
  revert s. induction k as [|a k IH]; intros s; simpl.
  - split; [intros _; exists s; reflexivity | done].
  - destruct s as [|b s].
    + split; [done | intros [post Hpost]; discriminate Hpost].
    + case_decide as Hab.
      * subst b. rewrite IH. split; intros [post Hpost]; exists post.
        -- by rewrite Hpost.
        -- by injection Hpost.
      * split; [done | intros [post Hpost]; injection Hpost; congruence].
Qed.

Lemma includes_spec s k :
  JS.includes s k = true ↔ ∃ pre post, s = pre +:+ k +:+ post.
Proof.
  induction s as [|c s IH]; simpl.
  - rewrite orb_false_r, startsWith_spec. split.
    + intros [post Hpost]. by exists EmptyString, post.
    + intros [pre [post Hpost]]. destruct pre; [by exists post | discriminate Hpost].
  - rewrite orb_true_iff, startsWith_spec, IH. split.
    + intros [[post Hpost] | [pre [post Hpost]]].
      * by exists EmptyString, post.
      * exists (String c pre), post. by rewrite Hpost.
    + intros [pre [post Hpost]]. destruct pre as [|c' pre].
      * left. by exists post.
      * right. exists pre, post. by injection Hpost.
Qed.

Lemma upperChar_not_lower c :
  ¬ (97 ≤ N_of_ascii (JS.upperChar c) ≤ 122)%N.
Proof. destruct c as [[] [] [] [] [] [] [] []]; vm_compute; intros [H1 H2]; auto. Qed.

Lemma toUpperCase_no_lower s : hasLower (JS.toUpperCase s) = false.
Proof.
  induction s as [|c s IH]; simpl; [done|]. rewrite IH, orb_false_r.
  apply not_true_is_false. rewrite andb_true_iff, !N.leb_le.
  apply upperChar_not_lower.
Qed.

Lemma toUpperCase_neq s x : hasLower x = true → JS.toUpperCase s ≠ x.
Proof. intros Hx Heq. rewrite <- Heq, toUpperCase_no_lower in Hx. done. Qed.

Lemma arrayIncludes_true xs x : JS.arrayIncludes xs x = true ↔ x ∈ xs.
Proof. unfold JS.arrayIncludes. by rewrite bool_decide_eq_true. Qed.

Lemma arrayIncludes_false xs x : JS.arrayIncludes xs x = false ↔ x ∉ xs.
Proof. unfold JS.arrayIncludes. by rewrite bool_decide_eq_false. Qed.

End JSFacts.

(** ** The live-API variant *)

Section LiveFacts.
Import Live.

Implicit Types (s : State) (w : World) (q target : string).

(** *** [getData] *)

Lemma live_getData_failed w ep q s :
  q ∈ failedQueries (kb s) →
  getData w ep q s = (None, record (CallGetData ep q) s).
Proof. intros Hq. unfold getData. simpl. by rewrite decide_True. Qed.

Lemma live_getData_kb_queue w ep q s :
  queue (snd (getData w ep q s)) = queue s ∧
  testedTargets (kb (snd (getData w ep q s))) = testedTargets (kb s) ∧
  visitedLocations (kb (snd (getData w ep q s))) = visitedLocations (kb s) ∧
  visitedEntities (kb (snd (getData w ep q s))) = visitedEntities (kb s).
Proof.
  unfold getData. simpl. case_decide; [done|].
  destruct (httpLookup _ _ _ _) as [|[message|]]; [done| |done].
  destruct (JS.truthy message && isErrorResponse message); [done|].
  by destruct (JS.truthy message).
Qed.

Lemma live_getData_log w ep q s :
  log (snd (getData w ep q s)) = log s ++ [CallGetData ep q] ∨
  log (snd (getData w ep q s)) = log s ++ [CallGetData ep q; HttpLookup ep q].
Proof.
  unfold getData. simpl. case_decide; [by left|right].
  destruct (httpLookup _ _ _ _) as [|[message|]]; simpl;
    [| destruct (JS.truthy message && isErrorResponse message);
       [| destruct (JS.truthy message)] |];
    simpl; by rewrite <- app_assoc.
Qed.

Lemma isErrorResponse_spec message :
  isErrorResponse message = true ↔
  ∃ keyword pre post,
    keyword ∈ ERROR_KEYWORDS ∧ message = pre +:+ keyword +:+ post.
Proof.
  unfold isErrorResponse. rewrite existsb_exists. split.
  - intros [keyword [Hin Hk]]. apply includes_spec in Hk as [pre [post ->]].
    exists keyword, pre, post. by rewrite list_elem_of_In.
  - intros [keyword [pre [post [Hin ->]]]]. exists keyword.
    rewrite <- list_elem_of_In. split; [done|]. apply includes_spec. eauto.
Qed.

Lemma isErrorResponse_truthy message :
  isErrorResponse message = true → JS.truthy message = true.
Proof. destruct message; [by vm_compute | done]. Qed.

(** *** [testTarget] *)

Lemma live_testTarget_tested w target s :
  target ∈ testedTargets (kb s) →
  testTarget w target s = (false, record (Tested target false) s).
Proof. intros Ht. unfold testTarget. by rewrite decide_True. Qed.

Lemma live_testTarget_fresh w target s :
  target ∉ testedTargets (kb s) →
  let r := testTarget w target s in
  fst r = isSuccessResponse (httpValidate w (length (log s)) target) ∧
  testedTargets (kb (snd r)) = {[target]} ∪ testedTargets (kb s) ∧
  log (snd r) = log s ++ [HttpValidate target; Tested target (fst r)].
Proof.
  intros Ht. unfold testTarget. rewrite decide_False by done. simpl.
  by rewrite <- app_assoc.
Qed.

(** *** Frame properties of the queue operations *)

Lemma live_enqueueLocation_frame l s :
  log (enqueueLocation l s) = log s ∧
  testedTargets (kb (enqueueLocation l s)) = testedTargets (kb s).
Proof. unfold enqueueLocation. by case_decide. Qed.

Lemma live_forEntities_frame es s :
  log (forEntities es s) = log s ∧
  testedTargets (kb (forEntities es s)) = testedTargets (kb s).
Proof.
  revert s. induction es as [|e es IH]; intros s; simpl; [done|].
  destruct (IH (enqueueEntity e s)) as [-> ->].
  unfold enqueueEntity. by case_decide.
Qed.

(** *** Early termination: the log of a run *)

Lemma live_quiet_snoc l e :
  live_quiet (l ++ [e]) ↔
  live_quiet l ∧ match e with Tested _ true => False | _ => True end.
Proof. unfold live_quiet. rewrite Forall_app, Forall_singleton. done. Qed.

Lemma live_getData_quiet w ep q s :
  live_quiet (log s) → live_quiet (log (snd (getData w ep q s))).
Proof.
  intros Hq. destruct (live_getData_log w ep q s) as [-> | ->].
  - by apply live_quiet_snoc.
  - change [CallGetData ep q; HttpLookup ep q]
      with ([CallGetData ep q] ++ [HttpLookup ep q]).
    rewrite app_assoc. apply live_quiet_snoc. split; [|done].
    by apply live_quiet_snoc.
Qed.

Lemma live_testTarget_stops w target s :
  live_quiet (log s) →
  live_stops (if fst (testTarget w target s) then Some target else None)
             (log (snd (testTarget w target s))).
Proof.
  intros Hq. unfold testTarget. case_decide; simpl.
  - by apply live_quiet_snoc.
  - destruct (isSuccessResponse _); simpl.
    + eexists. split; [done|]. by apply live_quiet_snoc.
    + apply live_quiet_snoc. split; [|done]. by apply live_quiet_snoc.
Qed.

Lemma live_forLocations_stops w ls s :
  live_quiet (log s) →
  live_stops (fst (forLocations w ls s)) (log (snd (forLocations w ls s))).
Proof.
  revert s. induction ls as [|l ls IH]; intros s Hq; simpl; [done|].
  destruct (shouldTestTarget l s); [|by apply IH].
  pose proof (live_testTarget_stops w l s Hq) as Ht.
  destruct (testTarget w l s) as [[] s1]; simpl in *; [done|].
  apply IH. by destruct (live_enqueueLocation_frame l s1) as [-> _].
Qed.

Lemma live_processNode_stops w current s :
  live_quiet (log s) →
  live_stops (fst (processNode w current s))
             (log (snd (processNode w current s))).
Proof.
  intros Hq. unfold processNode. destruct (type current).
  - pose proof (live_getData_quiet w locations (value current) s Hq) as Hg.
    destruct (getData w locations (value current) s) as [[es|] s1];
      simpl in *; [|done].
    destruct (0 <? length es); simpl; [|done].
    by destruct (live_forEntities_frame es
                   (setLocationEntities (value current) es s1)) as [-> _].
  - pose proof (live_getData_quiet w entities (value current) s Hq) as Hg.
    destruct (getData w entities (value current) s) as [[ls|] s1];
      simpl in *; [|done].
    destruct (0 <? length ls); simpl; [|done].
    by apply live_forLocations_stops.
Qed.

Lemma live_drain_stops fuel w i s :
  live_quiet (log s) →
  match fst (drain fuel w i s) with
  | Returned c =>
      live_stops (Some c) (log (snd (drain fuel w i s))) ∨
      (c = "No target found" ∧ live_quiet (log (snd (drain fuel w i s))))
  | OutOfFuel => live_quiet (log (snd (drain fuel w i s)))
  end.
Proof.
  revert i s. induction fuel as [|fuel IH]; intros i s Hq; simpl.
  - destruct (queue s !! i); simpl; [done | by right].
  - destruct (queue s !! i) as [current|]; simpl; [|by right].
    pose proof (live_processNode_stops w current s Hq) as Hp.
    destruct (processNode w current s) as [[c|] s1]; simpl in *.
    + by left.
    + by apply IH.
Qed.

Lemma live_seed_log k : log (seed (mkState k [] [])) = [].
Proof. done. Qed.

(** A log that ends with the only successful test has nothing after it. *)
Lemma live_stops_last c pre l c' post :
  live_quiet pre →
  pre ++ [Tested c true] = l ++ Tested c' true :: post →
  c' = c ∧ post = [].
Proof.
  intros Hq Heq. destruct post as [|e post _] using rev_ind.
  - apply app_inj_tail in Heq as [_ Heq]. by injection Heq.
  - rewrite app_comm_cons, app_assoc in Heq.
    apply app_inj_tail in Heq as [-> _].
    apply Forall_app in Hq as [_ Hq]. by inversion Hq.
Qed.

Lemma live_quiet_no_success l pre c post :
  live_quiet l → l ≠ pre ++ Tested c true :: post.
Proof.
  intros Hq ->. apply Forall_app in Hq as [_ Hq]. by inversion Hq.
Qed.

(** *** At most one validation request per candidate *)

Lemma live_validated_snoc l e :
  validated (l ++ [e]) =
  validated l ++ match e with HttpValidate t => [t] | _ => [] end.
Proof. unfold validated. rewrite omap_app. by destruct e. Qed.

Lemma live_getData_validated w ep q s :
  validated (log (snd (getData w ep q s))) = validated (log s).
Proof.
  destruct (live_getData_log w ep q s) as [-> | ->].
  - by rewrite live_validated_snoc, app_nil_r.
  - unfold validated. rewrite omap_app. simpl. by rewrite app_nil_r.
Qed.

Lemma live_getData_once w ep q s :
  live_once s → live_once (snd (getData w ep q s)).
Proof.
  intros [Hnd Hin]. unfold live_once.
  rewrite live_getData_validated.
  by destruct (live_getData_kb_queue w ep q s) as (_ & -> & _).
Qed.

Lemma live_testTarget_once w target s :
  live_once s → live_once (snd (testTarget w target s)).
Proof.
  intros [Hnd Hin]. unfold live_once, testTarget. case_decide as Ht; simpl.
  - by rewrite live_validated_snoc, app_nil_r.
  - rewrite !live_validated_snoc, app_nil_r. split.
    + apply NoDup_app. split; [done|]. split; [|apply NoDup_singleton].
      intros c Hc ->%list_elem_of_singleton. by apply Ht, Hin.
    + intros c [Hc | ->%list_elem_of_singleton]%elem_of_app; set_solver.
Qed.

Lemma live_once_frame s s' :
  log s' = log s → testedTargets (kb s') = testedTargets (kb s) →
  live_once s → live_once s'.
Proof. unfold live_once. by intros -> ->. Qed.

Lemma live_forLocations_once w ls s :
  live_once s → live_once (snd (forLocations w ls s)).
Proof.
  revert s. induction ls as [|l ls IH]; intros s Hs; simpl; [done|].
  destruct (shouldTestTarget l s); [|by apply IH].
  pose proof (live_testTarget_once w l s Hs) as Ht.
  destruct (testTarget w l s) as [[] s1]; simpl in *; [done|].
  apply IH. destruct (live_enqueueLocation_frame l s1).
  by eapply live_once_frame.
Qed.

Lemma live_processNode_once w current s :
  live_once s → live_once (snd (processNode w current s)).
Proof.
  intros Hs. unfold processNode. destruct (type current).
  - pose proof (live_getData_once w locations (value current) s Hs) as Hg.
    destruct (getData w locations (value current) s) as [[es|] s1];
      simpl in *; [|done].
    destruct (0 <? length es); simpl; [|done].
    destruct (live_forEntities_frame es
                (setLocationEntities (value current) es s1)).
    by eapply live_once_frame.
  - pose proof (live_getData_once w entities (value current) s Hs) as Hg.
    destruct (getData w entities (value current) s) as [[ls|] s1];
      simpl in *; [|done].
    destruct (0 <? length ls); simpl; [|done].
    apply live_forLocations_once. by eapply live_once_frame.
Qed.

Lemma live_drain_once fuel w i s :
  live_once s → live_once (snd (drain fuel w i s)).
Proof.
  revert i s. induction fuel as [|fuel IH]; intros i s Hs; simpl.
  - by destruct (queue s !! i).
  - destruct (queue s !! i) as [current|]; simpl; [|done].
    pose proof (live_processNode_once w current s Hs) as Hp.
    destruct (processNode w current s) as [[c|] s1]; simpl in *; [done|].
    by apply IH.
Qed.

Lemma live_searchAgent_once fuel w k :
  NoDup (validated (log (snd (searchAgent fuel w k)))).
Proof.
  apply (live_drain_once fuel w 0 (seed (mkState k [] []))).
  split; [apply NoDup_nil_2 | intros c Hc; by apply elem_of_nil in Hc].
Qed.

End LiveFacts.

(** ** The simulated-data variant *)

Section SimFacts.
Import Sim.

Implicit Types (s : State) (advisor : Advisor) (q loc : string).

(** *** [getData], [askModel], [testLocation] *)

Lemma sim_getData_failed ep q s :
  q ∈ failedQueries (kb s) →
  getData ep q s = (None, record (CallGetData ep q) s).
Proof. intros Hq. unfold getData. simpl. by rewrite decide_True. Qed.

Lemma sim_getData_log ep q s :
  log (snd (getData ep q s)) = log s ++ [CallGetData ep q] ∨
  log (snd (getData ep q s)) = log s ++ [CallGetData ep q; TableLookup ep q].
Proof.
  unfold getData. simpl. case_decide; [by left|right].
  destruct ep; simpl;
    (destruct (_ !! _) as [names|]; simpl;
     [destruct (0 <? length names)|]);
    simpl; by rewrite <- app_assoc.
Qed.

Lemma sim_askModel_state advisor s :
  snd (askModel advisor s) = record AskModel s.
Proof.
  unfold askModel. destruct (advisor _) as [|[content|]]; simpl; [done| |done].
  by destruct (JS.truthy _).
Qed.

Lemma sim_testLocation_result loc s :
  fst (testLocation loc s) = true →
  JS.toUpperCase loc = CORRECT_ANSWER.
Proof. unfold testLocation. repeat case_decide; simpl; done. Qed.

Lemma sim_testLocation_log loc s :
  log (snd (testLocation loc s)) = log s ++ [Tested loc (fst (testLocation loc s))].
Proof. unfold testLocation. by repeat case_decide. Qed.

Lemma sim_enqueueCity_log c s : log (enqueueCity c s) = log s.
Proof. unfold enqueueCity. by case_decide. Qed.

Lemma sim_forPeople_log ps s : log (forPeople ps s) = log s.
Proof.
  revert s. induction ps as [|p ps IH]; intros s; simpl; [done|].
  rewrite IH. unfold enqueuePerson. by case_decide.
Qed.

(** *** Early termination: the log of a run *)

Lemma sim_quiet_snoc l e :
  sim_quiet (l ++ [e]) ↔
  sim_quiet l ∧ match e with Tested _ true => False | _ => True end.
Proof. unfold sim_quiet. rewrite Forall_app, Forall_singleton. done. Qed.

Lemma sim_getData_quiet ep q s :
  sim_quiet (log s) → sim_quiet (log (snd (getData ep q s))).
Proof.
  intros Hq. destruct (sim_getData_log ep q s) as [-> | ->].
  - by apply sim_quiet_snoc.
  - change [CallGetData ep q; TableLookup ep q]
      with ([CallGetData ep q] ++ [TableLookup ep q]).
    rewrite app_assoc. apply sim_quiet_snoc. split; [|done].
    by apply sim_quiet_snoc.
Qed.

Lemma sim_testLocation_stops loc s :
  sim_quiet (log s) →
  sim_stops (if fst (testLocation loc s) then Some loc else None)
            (log (snd (testLocation loc s))).
Proof.
  intros Hq. rewrite sim_testLocation_log.
  destruct (fst (testLocation loc s)); simpl.
  - by eexists.
  - by apply sim_quiet_snoc.
Qed.

Lemma sim_forPlaces_stops ai ps s :
  sim_quiet (log s) →
  sim_stops (fst (forPlaces ai ps s)) (log (snd (forPlaces ai ps s))).
Proof.
  revert s. induction ps as [|p ps IH]; intros s Hq; simpl; [done|].
  destruct (negb _ && shouldTestLocation p s); [|by apply IH].
  pose proof (sim_testLocation_stops p s Hq) as Ht.
  destruct (testLocation p s) as [[] s1]; simpl in *; [done|].
  apply IH. by rewrite sim_enqueueCity_log.
Qed.

Lemma sim_processNode_stops advisor current s :
  sim_quiet (log s) →
  sim_stops (fst (processNode advisor current s))
            (log (snd (processNode advisor current s))).
Proof.
  intros Hq. unfold processNode. destruct (type current).
  - pose proof (sim_getData_quiet places (value current) s Hq) as Hg.
    destruct (getData places (value current) s) as [[names|] s1];
      simpl in *; [|done].
    destruct (0 <? length names); simpl; [|done].
    pose proof (sim_askModel_state advisor
                  (setCityPeople (value current) names s1)) as Ha.
    destruct (askModel _ _) as [nextTarget s3]; simpl in *. subst s3.
    rewrite sim_forPeople_log. simpl. by apply sim_quiet_snoc.
  - pose proof (sim_getData_quiet people (value current) s Hq) as Hg.
    destruct (getData people (value current) s) as [[names|] s1];
      simpl in *; [|done].
    destruct (0 <? length names); simpl; [|done].
    pose proof (sim_askModel_state advisor
                  (setPeopleLocations (value current) names s1)) as Ha.
    destruct (askModel _ _) as [nextLocation s3]; simpl in *. subst s3.
    set (s3 := record AskModel _).
    assert (sim_quiet (log s3)) as Hq3 by (by apply sim_quiet_snoc).
    destruct (JS.arrayIncludes _ _ && shouldTestLocation _ s3);
      [|by apply sim_forPlaces_stops].
    pose proof (sim_testLocation_stops (JS.toUpperCase nextLocation) s3 Hq3) as Ht.
    destruct (testLocation _ s3) as [[] s4]; simpl in *; [done|].
    apply sim_forPlaces_stops. by rewrite sim_enqueueCity_log.
Qed.

Lemma sim_drain_stops fuel advisor i s :
  sim_quiet (log s) →
  match fst (drain fuel advisor i s) with
  | Returned c =>
      sim_stops (Some c) (log (snd (drain fuel advisor i s))) ∨
      (c = "No data found" ∧ sim_quiet (log (snd (drain fuel advisor i s))))
  | _ => sim_quiet (log (snd (drain fuel advisor i s)))
  end.
Proof.
  revert i s. induction fuel as [|fuel IH]; intros i s Hq; simpl.
  - destruct (queue s !! i); simpl; [done | by right].
  - destruct (queue s !! i) as [current|]; simpl; [|by right].
    pose proof (sim_processNode_stops advisor current s Hq) as Hp.
    destruct (processNode advisor current s) as [[c|] s1]; simpl in *.
    + by left.
    + by apply IH.
Qed.

Lemma sim_seed_log aiCity s : log (seed aiCity s) = log s.
Proof. unfold seed. destruct (JS.arrayIncludes _ _); simpl; by repeat case_decide. Qed.

Lemma sim_agentLoop_stops fuel dataFile advisor k :
  match fst (agentLoop fuel dataFile advisor k) with
  | Returned c =>
      sim_stops (Some c) (log (snd (agentLoop fuel dataFile advisor k))) ∨
      sim_quiet (log (snd (agentLoop fuel dataFile advisor k)))
  | _ => sim_quiet (log (snd (agentLoop fuel dataFile advisor k)))
  end.
Proof.
  unfold agentLoop. destruct (getText _ _) as [s0|] eqn:Hg; simpl;
    [|by apply Forall_nil].
  pose proof (sim_askModel_state advisor s0) as Ha.
  destruct (askModel advisor s0) as [aiSuggestion s1]; simpl in *. subst s1.
  assert (log s0 = []) as Hs0.
  { unfold getText in Hg. destruct dataFile; [|done].
    destruct (JS.truthy _); [|done]. by injection Hg as <-. }
  pose proof (sim_drain_stops fuel advisor 0
                (seed (JS.toUpperCase aiSuggestion) (record AskModel s0))) as Hd.
  rewrite sim_seed_log in Hd. simpl in Hd. rewrite Hs0 in Hd.
  specialize (Hd ltac:(by repeat constructor)).
  destruct (fst (drain _ _ _ _)); [|done..].
  destruct Hd as [Hd | [_ Hd]]; [by left | by right].
Qed.

Lemma sim_stops_last c pre l c' post :
  sim_quiet pre →
  pre ++ [Tested c true] = l ++ Tested c' true :: post →
  c' = c ∧ post = [].
Proof.
  intros Hq Heq. destruct post as [|e post _] using rev_ind.
  - apply app_inj_tail in Heq as [_ Heq]. by injection Heq.
  - rewrite app_comm_cons, app_assoc in Heq.
    apply app_inj_tail in Heq as [-> _].
    apply Forall_app in Hq as [_ Hq]. by inversion Hq.
Qed.

Lemma sim_quiet_no_success l pre c post :
  sim_quiet l → l ≠ pre ++ Tested c true :: post.
Proof.
  intros Hq ->. apply Forall_app in Hq as [_ Hq]. by inversion Hq.
Qed.

(** *** The search reaches the target *)

Lemma sim_keeps_refl s : sim_keeps s s.
Proof. split; [done|]. split; [|done]. exists []. by rewrite app_nil_r. Qed.

Lemma sim_keeps_trans s1 s2 s3 :
  sim_keeps s1 s2 → sim_keeps s2 s3 → sim_keeps s1 s3.
Proof.
  intros (Hf1 & [e1 Hq1] & Ht1) (Hf2 & [e2 Hq2] & Ht2).
  split; [congruence|]. split; [|auto].
  exists (e1 ++ e2). by rewrite Hq2, Hq1, app_assoc.
Qed.

Lemma sim_keeps_safe s s' : sim_keeps s s' → sim_safe s → sim_safe s'.
Proof. intros (Hf & _ & Ht) [Hs1 Hs2]. split; [auto | congruence]. Qed.

Lemma sim_keeps_same s s' :
  failedQueries (kb s') = failedQueries (kb s) →
  queue s' = queue s →
  testedLocations (kb s') = testedLocations (kb s) →
  sim_keeps s s'.
Proof.
  intros Hf Hq Ht. split; [done|]. split; [|by rewrite Ht].
  exists []. by rewrite app_nil_r.
Qed.

Lemma sim_keeps_enqueueCity c s : sim_keeps s (enqueueCity c s).
Proof.
  unfold enqueueCity. case_decide; [apply sim_keeps_refl|].
  split; [done|]. split; [by eexists | done].
Qed.

Lemma sim_keeps_forPeople ps s : sim_keeps s (forPeople ps s).
Proof.
  revert s. induction ps as [|p ps IH]; intros s; simpl;
    [apply sim_keeps_refl|].
  eapply sim_keeps_trans; [|apply IH].
  unfold enqueuePerson. case_decide; [apply sim_keeps_refl|].
  split; [done|]. split; [by eexists | done].
Qed.

Lemma sim_getData_hit ep q s names :
  q ∉ failedQueries (kb s) →
  match ep with
  | people => SIMULATED_DATA_people !! JS.toUpperCase q
  | places => SIMULATED_DATA_places !! JS.toUpperCase q
  end = Some names →
  (0 <? length names) = true →
  getData ep q s
  = (Some names, record (TableLookup ep q) (record (CallGetData ep q) s)).
Proof.
  intros Hq Hn Hlen. unfold getData. simpl.
  rewrite decide_False by done. by rewrite Hn, Hlen.
Qed.

Lemma sim_testLocation_miss loc s :
  JS.toUpperCase loc ≠ CORRECT_ANSWER →
  fst (testLocation loc s) = false ∧ sim_keeps s (snd (testLocation loc s)).
Proof.
  intros Hne. unfold testLocation. case_decide; simpl.
  - split; [done | by apply sim_keeps_same].
  - rewrite decide_False by done. simpl. split; [done|].
    split; [done|]. split; [exists []; by rewrite app_nil_r|].
    simpl. intros Ht [Hx%elem_of_singleton | Hx]%elem_of_union;
      [congruence | done].
Qed.

Lemma sim_forPlaces_miss ai ps s :
  (∀ x, x ∈ ps → JS.toUpperCase x ≠ CORRECT_ANSWER) →
  fst (forPlaces ai ps s) = None ∧ sim_keeps s (snd (forPlaces ai ps s)).
Proof.
  revert s. induction ps as [|p ps IH]; intros s Hps; simpl.
  - split; [done | apply sim_keeps_refl].
  - assert (∀ x, x ∈ ps → JS.toUpperCase x ≠ CORRECT_ANSWER) as Hps'
      by (intros x Hx; apply Hps; by right).
    destruct (negb _ && shouldTestLocation p s); [|by apply IH].
    destruct (sim_testLocation_miss p s) as [Hr Hk]; [apply Hps; by left|].
    destruct (testLocation p s) as [success s1]; simpl in *. subst success.
    destruct (IH (enqueueCity p s1) Hps') as [-> Hk'].
    split; [done|].
    eauto using sim_keeps_trans, sim_keeps_enqueueCity.
Qed.

(** A city whose lookup succeeds: nothing is tested, people are queued. *)
Lemma sim_city_step advisor c names s :
  c ∉ failedQueries (kb s) →
  SIMULATED_DATA_places !! JS.toUpperCase c = Some names →
  (0 <? length names) = true →
  ∃ ai,
    processNode advisor (mkNode city c) s
    = (None, forPeople (prioritize names ai)
               (record AskModel (setCityPeople c names
                  (record (TableLookup places c)
                     (record (CallGetData places c) s))))).
Proof.
  intros Hc Hn Hlen. unfold processNode. simpl.
  rewrite (sim_getData_hit places c s names) by done. rewrite Hlen.
  pose proof (sim_askModel_state advisor
    (setCityPeople c names
       (record (TableLookup places c) (record (CallGetData places c) s)))) as Ha.
  destruct (askModel _ _) as [nextTarget s3]. simpl in Ha. subst s3.
  by exists (JS.toUpperCase nextTarget).
Qed.

Lemma sim_city_keeps advisor c names s :
  c ∉ failedQueries (kb s) →
  SIMULATED_DATA_places !! JS.toUpperCase c = Some names →
  (0 <? length names) = true →
  fst (processNode advisor (mkNode city c) s) = None ∧
  sim_keeps s (snd (processNode advisor (mkNode city c) s)).
Proof.
  intros Hc Hn Hlen.
  destruct (sim_city_step advisor c names s Hc Hn Hlen) as [ai ->].
  split; [done|]. simpl.
  eapply sim_keeps_trans; [|apply sim_keeps_forPeople]. by apply sim_keeps_same.
Qed.

(** A person none of whose places is the target: the search goes on. *)
Lemma sim_person_miss advisor p names s :
  p ∉ failedQueries (kb s) →
  SIMULATED_DATA_people !! JS.toUpperCase p = Some names →
  (0 <? length names) = true →
  (∀ x, x ∈ names → JS.toUpperCase x ≠ CORRECT_ANSWER) →
  fst (processNode advisor (mkNode person p) s) = None ∧
  sim_keeps s (snd (processNode advisor (mkNode person p) s)).
Proof.
  intros Hp Hn Hlen Hmiss. unfold processNode. simpl.
  rewrite (sim_getData_hit people p s names) by done. rewrite Hlen.
  set (s2 := setPeopleLocations _ _ _).
  pose proof (sim_askModel_state advisor s2) as Ha.
  destruct (askModel advisor s2) as [nextLocation s3]. simpl in Ha. subst s3.
  set (s3 := record AskModel s2).
  assert (sim_keeps s s3) as Hk3 by (by apply sim_keeps_same).
  destruct (JS.arrayIncludes names _) eqn:Hinc; simpl.
  - apply arrayIncludes_true in Hinc.
    destruct (shouldTestLocation _ s3).
    + destruct (sim_testLocation_miss (JS.toUpperCase nextLocation) s3)
        as [Hr Hk]; [by apply Hmiss|].
      destruct (testLocation _ s3) as [success s4]; simpl in *. subst success.
      destruct (sim_forPlaces_miss (JS.toUpperCase nextLocation) names
                  (enqueueCity (JS.toUpperCase nextLocation) s4) Hmiss)
        as [-> Hk'].
      split; [done|].
      eauto using sim_keeps_trans, sim_keeps_enqueueCity.
    + destruct (sim_forPlaces_miss (JS.toUpperCase nextLocation) names s3 Hmiss)
        as [-> Hk'].
      split; [done|]. eauto using sim_keeps_trans.
  - destruct (sim_forPlaces_miss (JS.toUpperCase nextLocation) names s3 Hmiss)
      as [-> Hk'].
    split; [done|]. eauto using sim_keeps_trans.
Qed.

Lemma sim_harmless_step advisor n s :
  sim_harmless n → sim_safe s →
  fst (processNode advisor n s) = None ∧
  sim_keeps s (snd (processNode advisor n s)).
Proof.
  intros Hn [_ Hf].
  assert (∀ q, q ∉ failedQueries (kb s)) as Hq
    by (intros q; rewrite Hf; apply not_elem_of_empty).
  unfold sim_harmless in Hn.
  repeat (apply elem_of_cons in Hn as [-> | Hn]);
    [| | | | by apply elem_of_nil in Hn].
  - by apply (sim_city_keeps advisor "Gdansk" ["MONIKA"; "PAWEL"; "ECHO"]).
  - by apply (sim_city_keeps advisor "Poznan"
                ["PAWEL"; "MARCIN"; "TOMASZ"; "ECHO"]).
  - apply (sim_person_miss advisor "MONIKA" ["GDANSK"]); [done..|].
    intros x Hx. repeat (apply elem_of_cons in Hx as [-> | Hx]);
      [done | by apply elem_of_nil in Hx].
  - apply (sim_person_miss advisor "PAWEL" ["GDANSK"; "POZNAN"]); [done..|].
    intros x Hx. repeat (apply elem_of_cons in Hx as [-> | Hx]);
      [done | done | by apply elem_of_nil in Hx].
Qed.

Lemma sim_forPlaces_hit ai ps1 ps2 s :
  ai ≠ CORRECT_ANSWER →
  (∀ x, x ∈ ps1 → JS.toUpperCase x ≠ CORRECT_ANSWER) →
  CORRECT_ANSWER ∉ testedLocations (kb s) →
  fst (forPlaces ai (ps1 ++ CORRECT_ANSWER :: ps2) s) = Some CORRECT_ANSWER.
Proof.
  intros Hai. revert s. induction ps1 as [|p ps1 IH]; intros s Hps Ht; simpl.
  - rewrite bool_decide_eq_false_2 by done. simpl.
    unfold shouldTestLocation, testLocation.
    change (JS.toUpperCase CORRECT_ANSWER) with CORRECT_ANSWER.
    rewrite bool_decide_eq_false_2 by done.
    assert (bool_decide (CORRECT_ANSWER ∈ INITIAL_CITIES) = false) as -> by done.
    simpl. by repeat case_decide.
  - assert (∀ x, x ∈ ps1 → JS.toUpperCase x ≠ CORRECT_ANSWER) as Hps'
      by (intros x Hx; apply Hps; by right).
    destruct (negb _ && shouldTestLocation p s); [|by apply IH].
    destruct (sim_testLocation_miss p s) as [Hr (_ & _ & Hk)];
      [apply Hps; by left|].
    destruct (testLocation p s) as [success s1]; simpl in *. subst success.
    apply IH; [done|].
    by apply (sim_keeps_enqueueCity p s1), Hk.
Qed.

(** A person among whose places the target is found returns it, whatever
    the advisor says. *)
Lemma sim_person_hit advisor p ps1 ps2 s :
  p ∉ failedQueries (kb s) →
  SIMULATED_DATA_people !! JS.toUpperCase p
  = Some (ps1 ++ CORRECT_ANSWER :: ps2) →
  (∀ x, x ∈ ps1 ++ ps2 → JS.toUpperCase x ≠ CORRECT_ANSWER) →
  CORRECT_ANSWER ∉ testedLocations (kb s) →
  fst (processNode advisor (mkNode person p) s) = Some CORRECT_ANSWER.
Proof.
  intros Hp Hn Hmiss Ht. unfold processNode. simpl.
  assert ((0 <? length (ps1 ++ CORRECT_ANSWER :: ps2)) = true) as Hlen.
  { rewrite length_app. simpl. apply Nat.ltb_lt. lia. }
  rewrite (sim_getData_hit people p s _ Hp Hn Hlen). rewrite Hlen.
  set (names := ps1 ++ CORRECT_ANSWER :: ps2).
  set (s2 := setPeopleLocations _ _ _).
  pose proof (sim_askModel_state advisor s2) as Ha.
  destruct (askModel advisor s2) as [nextLocation s3]. simpl in Ha. subst s3.
  set (s3 := record AskModel s2). set (ai := JS.toUpperCase nextLocation).
  assert (CORRECT_ANSWER ∉ testedLocations (kb s3)) as Ht3 by done.
  assert (∀ x, x ∈ ps1 → JS.toUpperCase x ≠ CORRECT_ANSWER) as Hps1
    by (intros x Hx; apply Hmiss, elem_of_app; by left).
  destruct (JS.arrayIncludes names ai && shouldTestLocation ai s3) eqn:Hcond.
  - apply andb_true_iff in Hcond as [Hinc Hshould].
    apply arrayIncludes_true in Hinc.
    destruct (decide (ai = CORRECT_ANSWER)) as [Heq | Hne].
    + rewrite Heq. unfold testLocation.
      change (JS.toUpperCase CORRECT_ANSWER) with CORRECT_ANSWER.
      by repeat case_decide.
    + assert (JS.toUpperCase ai ≠ CORRECT_ANSWER) as Hup.
      { unfold names in Hinc.
        apply elem_of_app in Hinc as [Hin | Hin];
          [apply Hmiss, elem_of_app; by left|].
        apply elem_of_cons in Hin as [Hin | Hin]; [done|].
        apply Hmiss, elem_of_app; by right. }
      destruct (sim_testLocation_miss ai s3 Hup) as [Hr (_ & _ & Hk)].
      destruct (testLocation ai s3) as [success s4]; simpl in *. subst success.
      apply sim_forPlaces_hit; [done..|].
      by apply (sim_keeps_enqueueCity ai s4), Hk.
  - apply sim_forPlaces_hit; [|done..].
    intros Heq. rewrite Heq in Hcond.
    apply andb_false_iff in Hcond as [Hinc | Hshould].
    + apply arrayIncludes_false in Hinc. apply Hinc.
      apply elem_of_app. right. by left.
    + unfold shouldTestLocation in Hshould.
      change (JS.toUpperCase CORRECT_ANSWER) with CORRECT_ANSWER in Hshould.
      rewrite bool_decide_eq_false_2 in Hshould by done. done.
Qed.

Lemma sim_ECHO_step advisor s :
  sim_safe s →
  fst (processNode advisor (mkNode person "ECHO") s) = Some CORRECT_ANSWER.
Proof.
  intros [Ht Hf].
  apply (sim_person_hit advisor "ECHO"
           ["GDANSK"; "POZNAN"; "WARSZAWA"; "WROCLAW"] []); [|done| |done].
  - rewrite Hf. apply not_elem_of_empty.
  - intros x Hx. repeat (apply elem_of_cons in Hx as [-> | Hx]);
      [done..| by apply elem_of_nil in Hx].
Qed.

Lemma sim_drain_S fuel advisor i s :
  drain (S fuel) advisor i s =
  match queue s !! i with
  | None => (Returned "No data found", s)
  | Some current =>
      match processNode advisor current s with
      | (Some result, s') => (Returned result, s')
      | (None, s') => drain fuel advisor (S i) s'
      end
  end.
Proof. done. Qed.

(** Once [ECHO] is queued behind harmless nodes only, the search returns
    the target, and [length pre + 1] turns of the loop are enough. *)
Lemma sim_drain_finds advisor pre :
  ∀ fuel i s post,
    drop i (queue s) = pre ++ mkNode person "ECHO" :: post →
    Forall sim_harmless pre →
    sim_safe s →
    length pre < fuel →
    fst (drain fuel advisor i s) = Returned CORRECT_ANSWER.
Proof.
  induction pre as [|n pre IH]; intros fuel i s post Hdrop Hpre Hsafe Hfuel;
    (destruct fuel as [|fuel]; [simpl in Hfuel; lia|]);
    rewrite sim_drain_S.
  - assert (queue s !! i = Some (mkNode person "ECHO")) as ->.
    { rewrite <- (Nat.add_0_r i), <- lookup_drop. by rewrite Hdrop. }
    pose proof (sim_ECHO_step advisor s Hsafe) as He.
    destruct (processNode _ _ s) as [r s']. simpl in He. by subst r.
  - assert (queue s !! i = Some n) as Hi.
    { rewrite <- (Nat.add_0_r i), <- lookup_drop. by rewrite Hdrop. }
    rewrite Hi. apply Forall_cons in Hpre as [Hn Hpre].
    destruct (sim_harmless_step advisor n s Hn Hsafe) as [Hr Hk].
    destruct (processNode advisor n s) as [r s']. simpl in Hr, Hk. subst r.
    destruct Hk as (Hf & [extra Hq] & Ht).
    apply (IH fuel (S i) s' (post ++ extra)).
    + rewrite Hq, drop_app_le by (apply lookup_lt_Some in Hi; lia).
      replace (S i) with (i + 1) by lia.
      rewrite <- (drop_drop (queue s) 1 i), Hdrop. simpl.
      rewrite drop_0. by rewrite <- app_assoc.
    + done.
    + destruct Hsafe as [Hs1 Hs2]. split; [auto | congruence].
    + simpl in Hfuel. lia.
Qed.

Lemma sim_prioritize_first ai :
  prioritize ["MONIKA"; "PAWEL"; "ECHO"] ai
  ∈ [ ["MONIKA"; "PAWEL"; "ECHO"];
      ["PAWEL"; "MONIKA"; "ECHO"];
      ["ECHO"; "MONIKA"; "PAWEL"] ].
Proof.
  unfold prioritize. destruct (JS.arrayIncludes _ ai) eqn:Hinc.
  - apply arrayIncludes_true in Hinc.
    repeat (apply elem_of_cons in Hinc as [-> | Hinc]);
      [| | | by apply elem_of_nil in Hinc]; vm_compute; set_solver.
  - set_solver.
Qed.

Lemma sim_forPeople_fresh ps s :
  NoDup ps →
  (∀ p, p ∈ ps → p ∉ visitedPeople (kb s)) →
  queue (forPeople ps s) = queue s ++ (mkNode person <$> ps).
Proof.
  revert s. induction ps as [|p ps IH]; intros s Hnd Hfresh; simpl.
  - by rewrite app_nil_r.
  - apply NoDup_cons in Hnd as [Hp Hnd].
    unfold enqueuePerson. rewrite decide_False by (apply Hfresh; by left).
    rewrite IH; [simpl; by rewrite <- app_assoc | done |].
    intros x Hx [->%elem_of_singleton | Hv]%elem_of_union; [done|].
    by apply (Hfresh x); [right|].
Qed.

Lemma sim_seed_fallthrough ai s :
  seed (JS.toUpperCase ai) s
  = seedCity CITIES_POZNAN (seedCity CITIES_GDANSK s).
Proof.
  unfold seed. rewrite (proj2 (arrayIncludes_false _ _)); [done|].
  intros Hin. repeat (apply elem_of_cons in Hin as [Hin | Hin]);
    [by apply toUpperCase_neq in Hin ..| by apply elem_of_nil in Hin].
Qed.

(** From the empty knowledge base and a readable context file,
    [agentLoop] returns the target within five turns of its loop, whatever
    the advisor answers. *)
Lemma sim_agentLoop_finds fuel content advisor :
  JS.truthy (JS.trim content) = true →
  5 ≤ fuel →
  fst (agentLoop fuel (Some content) advisor knowledgeBase)
  = Returned CORRECT_ANSWER.
Proof.
  intros Hc Hfuel. unfold agentLoop, getText. rewrite Hc.
  set (s0 := setContext content _).
  pose proof (sim_askModel_state advisor s0) as Ha.
  destruct (askModel advisor s0) as [aiSuggestion s1]. simpl in Ha. subst s1.
  rewrite sim_seed_fallthrough.
  set (s2 := seedCity _ _).
  destruct fuel as [|fuel]; [lia|]. rewrite sim_drain_S.
  change (queue s2 !! 0) with (Some (mkNode city "Gdansk")).
  destruct (sim_city_step advisor "Gdansk" ["MONIKA"; "PAWEL"; "ECHO"] s2)
    as [ai ->]; [apply not_elem_of_empty | done | done |].
  set (s3 := record AskModel _).
  pose proof (sim_prioritize_first ai) as HL.
  set (L := prioritize _ ai) in *.
  assert (sim_safe (forPeople L s3)) as Hsafe.
  { apply (sim_keeps_safe s3); [apply sim_keeps_forPeople|].
    split; [apply not_elem_of_empty | done]. }
  assert (NoDup L → queue (forPeople L s3)
          = [mkNode city "Gdansk"; mkNode city "Poznan"]
            ++ (mkNode person <$> L)) as Hq.
  { intros Hnd. apply sim_forPeople_fresh; [done|].
    intros p _. apply not_elem_of_empty. }
  repeat (apply elem_of_cons in HL as [HL | HL]);
    [| | | by apply elem_of_nil in HL]; rewrite HL in *.
  - apply (sim_drain_finds advisor
             [mkNode city "Poznan"; mkNode person "MONIKA"; mkNode person "PAWEL"]
             fuel 1 _ []); [| |done|simpl; lia].
    + rewrite Hq by compute_done. done.
    + unfold sim_harmless. repeat constructor; set_solver.
  - apply (sim_drain_finds advisor
             [mkNode city "Poznan"; mkNode person "PAWEL"; mkNode person "MONIKA"]
             fuel 1 _ []); [| |done|simpl; lia].
    + rewrite Hq by compute_done. done.
    + unfold sim_harmless. repeat constructor; set_solver.
  - apply (sim_drain_finds advisor [mkNode city "Poznan"] fuel 1 _
             [mkNode person "MONIKA"; mkNode person "PAWEL"]);
      [| |done|simpl; lia].
    + rewrite Hq by compute_done. done.
    + unfold sim_harmless. repeat constructor; set_solver.
Qed.

(** *** The advisor is consulted through [askModel] only *)

Lemma sim_processNode_ext adv1 adv2 n s :
  (∀ s', askModel adv1 s' = askModel adv2 s') →
  processNode adv1 n s = processNode adv2 n s.
Proof.
  intros Hext. unfold processNode. destruct (type n).
  - destruct (getData places (value n) s) as [[names|] s1]; [|done].
    destruct (0 <? length names); [|done]. by rewrite Hext.
  - destruct (getData people (value n) s) as [[names|] s1]; [|done].
    destruct (0 <? length names); [|done]. by rewrite Hext.
Qed.

Lemma sim_drain_ext adv1 adv2 fuel i s :
  (∀ s', askModel adv1 s' = askModel adv2 s') →
  drain fuel adv1 i s = drain fuel adv2 i s.
Proof.
  intros Hext. revert i s. induction fuel as [|fuel IH]; intros i s; [done|].
  rewrite !sim_drain_S. destruct (queue s !! i) as [current|]; [|done].
  rewrite (sim_processNode_ext adv1 adv2 current s Hext).
  destruct (processNode adv2 current s) as [[r|] s']; [done | apply IH].
Qed.

Lemma sim_agentLoop_ext adv1 adv2 fuel dataFile k :
  (∀ s', askModel adv1 s' = askModel adv2 s') →
  agentLoop fuel dataFile adv1 k = agentLoop fuel dataFile adv2 k.
Proof.
  intros Hext. unfold agentLoop. destruct (getText _ _) as [s0|]; [|done].
  rewrite Hext. destruct (askModel adv2 s0) as [ai s1].
  by apply sim_drain_ext.
Qed.

Lemma sim_askModel_fail_soft s :
  askModel sim_failing s = askModel sim_echoing s.
Proof. done. Qed.

End SimFacts.

(** ** The model on concrete inputs *)

Example toUpperCase_Gdansk : JS.toUpperCase "Gdansk" = "GDANSK".
Proof. reflexivity. Qed.

Example names_of_spaces :
  JS.names_of "  RAFAL   AZAZEL SAMUEL " = ["RAFAL"; "AZAZEL"; "SAMUEL"].
Proof. reflexivity. Qed.

Example names_of_blank : JS.names_of "   " = [].
Proof. reflexivity. Qed.

Example splitWs_keeps_outer_gaps :
  JS.splitWs " a  b " = [EmptyString; "a"; "b"; EmptyString].
Proof. reflexivity. Qed.

Example isErrorResponse_lower :
  Live.isErrorResponse "some restricted data" = true.
Proof. reflexivity. Qed.

Example prioritize_moves_to_front :
  Sim.prioritize ["PAWEL"; "MARCIN"; "TOMASZ"; "ECHO"] "TOMASZ"
  = ["TOMASZ"; "PAWEL"; "MARCIN"; "ECHO"].
Proof. reflexivity. Qed.

Example prioritize_ignores_stranger :
  Sim.prioritize ["PAWEL"; "MARCIN"] "ZYGFRYD" = ["PAWEL"; "MARCIN"].
Proof. reflexivity. Qed.

(** The run with a failing advisor: the queue when OLSZTYN is found. *)
Example agentLoop_failing_advisor_queue :
  Sim.value <$> Sim.queue
    (snd (Sim.agentLoop 5 (Some "case notes") sim_failing Sim.knowledgeBase))
  = ["Gdansk"; "Poznan"; "ECHO"; "MONIKA"; "PAWEL"; "MARCIN"; "TOMASZ";
     "GDANSK"; "POZNAN"; "WARSZAWA"; "WROCLAW"].
Proof. vm_compute. reflexivity. Qed.

Example agentLoop_without_context :
  fst (Sim.agentLoop 5 None sim_failing Sim.knowledgeBase) = Sim.Threw.
Proof. reflexivity. Qed.

Example agentLoop_out_of_fuel :
  fst (Sim.agentLoop 2 (Some "case notes") sim_failing Sim.knowledgeBase)
  = Sim.OutOfFuel.
Proof. vm_compute. reflexivity. Qed.

Example searchAgent_demo :
  fst (Live.searchAgent 5 live_demo_world Live.knowledgeBase)
  = Live.Returned "Target".
Proof. vm_compute. reflexivity. Qed.

Example searchAgent_nothing_found :
  fst (Live.searchAgent 5 (live_const_world None) Live.knowledgeBase)
  = Live.Returned "No target found".
Proof. vm_compute. reflexivity. Qed.

(** ** The claims of the specification *)

(** C1.  On the simulated relation, with starting cities Gdansk and Poznan
    and target OLSZTYN, the search started from the empty knowledge base
    with a readable context file returns OLSZTYN for every advisor, and five
    turns of its loop are enough. *)
Theorem agentLoop_returns_OLSZTYN (advisor : Sim.Advisor) (content : string)
    (fuel : nat) :
  JS.truthy (JS.trim content) = true →
  5 ≤ fuel →
  fst (Sim.agentLoop fuel (Some content) advisor Sim.knowledgeBase)
  = Sim.Returned "OLSZTYN".
Proof. intros Hc Hfuel. by apply sim_agentLoop_finds. Qed.

Lemma agentLoop_returns_OLSZTYN_witness :
  JS.truthy (JS.trim "case notes") = true ∧ 5 ≤ 7 ∧
  fst (Sim.agentLoop 7 (Some "case notes")
         (fun n => Sim.ModelContent (Some "wroclaw")) Sim.knowledgeBase)
  = Sim.Returned "OLSZTYN".
Proof.
  split; [reflexivity|]. split; [lia|].
  apply (agentLoop_returns_OLSZTYN
           (fun n => Sim.ModelContent (Some "wroclaw")) "case notes" 7);
    [reflexivity | lia].
Defined.

(** C2.  The claim asks that no starting node is ever handed to the
    validator.  In the run of [agentLoop] in which every advisor call fails,
    the validator is called on GDANSK, which is the starting city Gdansk
    under the case-normalized identity: [shouldTestLocation] compares the
    upper-case place with the mixed-case entries of [INITIAL_CITIES]. *)
Theorem agentLoop_tests_starting_city :
  let run := Sim.agentLoop 5 (Some "case notes") sim_failing Sim.knowledgeBase in
  ("GDANSK" ∈ Sim.testedAt (Sim.log (snd run))) ∧
  "GDANSK" ∈ (JS.toUpperCase <$> Sim.INITIAL_CITIES) ∧
  Sim.shouldTestLocation "GDANSK"
    (Sim.seed "ECHO" (Sim.mkState Sim.knowledgeBase [] [])) = true.
Proof. split; [compute_done|]. split; [compute_done | reflexivity]. Qed.

(** C3, as the claim states it, fails in the simulated variant: a lookup
    that finds no names is recorded in [failedQueries]. *)
Lemma getData_no_names_counterexample :
  let s := Sim.mkState Sim.knowledgeBase [] [] in
  Sim.SIMULATED_DATA_places !! JS.toUpperCase "KRAKOW" = None ∧
  fst (Sim.getData Sim.places "KRAKOW" s) = None ∧
  ("KRAKOW" ∉ Sim.failedQueries (Sim.kb s)) ∧
  "KRAKOW" ∈ Sim.failedQueries (Sim.kb (snd (Sim.getData Sim.places "KRAKOW" s))).
Proof. repeat split; compute_done. Qed.

(** C3, amended.  In the live variant, a lookup that resolves with a text
    that is not classified as an error and holds no name (or with no text)
    returns absent and leaves the knowledge base, hence [failedQueries],
    unchanged.  In the simulated variant, a lookup that finds no names
    returns absent and adds the query to [failedQueries]. *)
Theorem getData_no_names :
  (∀ (w : Live.World) ep q (s : Live.State) message,
      Live.httpLookup w (length (Live.log s) + 1) ep q = Live.HttpOk message →
      match message with
      | Some m => Live.isErrorResponse m = false ∧ JS.names_of m = []
      | None => True
      end →
      fst (Live.getData w ep q s) = None ∧
      Live.kb (snd (Live.getData w ep q s)) = Live.kb s) ∧
  (∀ ep q (s : Sim.State),
      q ∉ Sim.failedQueries (Sim.kb s) →
      match ep with
      | Sim.people => Sim.SIMULATED_DATA_people !! JS.toUpperCase q
      | Sim.places => Sim.SIMULATED_DATA_places !! JS.toUpperCase q
      end ∈ [None; Some []] →
      fst (Sim.getData ep q s) = None ∧
      Sim.failedQueries (Sim.kb (snd (Sim.getData ep q s)))
      = {[q]} ∪ Sim.failedQueries (Sim.kb s)).
Proof.
  split.
  - intros w ep q s message Hresp Hnames. unfold Live.getData. simpl.
    case_decide; [done|].
    rewrite length_app. simpl. rewrite Hresp.
    destruct message as [m|]; [|done]. destruct Hnames as [-> ->].
    rewrite andb_false_r. by destruct (JS.truthy m).
  - intros ep q s Hq Hnone. unfold Sim.getData. simpl.
    rewrite decide_False by done.
    destruct ep; simpl in *;
      repeat (apply elem_of_cons in Hnone as [-> | Hnone]);
      try (by apply elem_of_nil in Hnone); done.
Qed.

Lemma getData_no_names_witness :
  (let w := live_const_world (Some "   ") in
   let s := Live.mkState Live.knowledgeBase [] [] in
   fst (Live.getData w Live.entities "E1" s) = None ∧
   Live.kb (snd (Live.getData w Live.entities "E1" s)) = Live.kb s) ∧
  (let s := Sim.mkState Sim.knowledgeBase [] [] in
   fst (Sim.getData Sim.places "KRAKOW" s) = None ∧
   Sim.failedQueries (Sim.kb (snd (Sim.getData Sim.places "KRAKOW" s)))
   = {[ "KRAKOW" ]} ∪ Sim.failedQueries (Sim.kb s)).
Proof.
  split.
  - apply (proj1 getData_no_names (live_const_world (Some "   "))
             Live.entities "E1" (Live.mkState Live.knowledgeBase [] [])
             (Some "   ")); [reflexivity | split; reflexivity].
  - apply (proj2 getData_no_names Sim.places "KRAKOW"
             (Sim.mkState Sim.knowledgeBase [] []));
      [apply not_elem_of_empty | vm_compute; left].
Defined.

(** C4.  The claim asks that a node identity (type, case-normalized name)
    is queued at most once.  In the run of [agentLoop] in which every advisor
    call fails, the queue holds the city Gdansk, put there as a starting
    node, and the city GDANSK, put there when ECHO is expanded: the visited
    set holds the mixed-case name and does not stop the upper-case one. *)
Theorem agentLoop_enqueues_starting_city_again :
  let run := Sim.agentLoop 5 (Some "case notes") sim_failing Sim.knowledgeBase in
  Sim.mkNode Sim.city "Gdansk" ∈ Sim.queue (snd run) ∧
  Sim.mkNode Sim.city "GDANSK" ∈ Sim.queue (snd run) ∧
  sim_identity (Sim.mkNode Sim.city "Gdansk")
  = sim_identity (Sim.mkNode Sim.city "GDANSK") ∧
  ¬ NoDup (sim_identity <$> Sim.queue (snd run)).
Proof. repeat split; compute_done. Qed.

(** C5.  In both variants, a validator call that returns true is the last
    event of the run, and the run returns the very candidate that was
    tested: no query, advice or test follows it. *)
Theorem early_termination :
  (∀ fuel (w : Live.World) k pre c post,
      Live.log (snd (Live.searchAgent fuel w k))
      = pre ++ Live.Tested c true :: post →
      post = [] ∧ fst (Live.searchAgent fuel w k) = Live.Returned c) ∧
  (∀ fuel dataFile (advisor : Sim.Advisor) k pre c post,
      Sim.log (snd (Sim.agentLoop fuel dataFile advisor k))
      = pre ++ Sim.Tested c true :: post →
      post = [] ∧
      fst (Sim.agentLoop fuel dataFile advisor k) = Sim.Returned c).
Proof.
  split.
  - intros fuel w k pre c post Hlog. unfold Live.searchAgent in *.
    pose proof (live_drain_stops fuel w 0
                  (Live.seed (Live.mkState k [] [])) (Forall_nil_2 _)) as Hd.
    destruct (Live.drain fuel w 0 _) as [[r|] s]; simpl in *.
    + destruct Hd as [[pre' [Heq Hq]] | [_ Hq]].
      * rewrite Heq in Hlog.
        destruct (live_stops_last _ _ _ _ _ Hq Hlog) as [-> ->]. done.
      * by apply live_quiet_no_success with (pre := pre) (c := c) (post := post)
          in Hq.
    + by apply live_quiet_no_success with (pre := pre) (c := c) (post := post)
        in Hd.
  - intros fuel dataFile advisor k pre c post Hlog.
    pose proof (sim_agentLoop_stops fuel dataFile advisor k) as Hd.
    destruct (Sim.agentLoop fuel dataFile advisor k) as [[r| |] s]; simpl in *.
    + destruct Hd as [[pre' [Heq Hq]] | Hq].
      * rewrite Heq in Hlog.
        destruct (sim_stops_last _ _ _ _ _ Hq Hlog) as [-> ->]. done.
      * by apply sim_quiet_no_success with (pre := pre) (c := c) (post := post)
          in Hq.
    + by apply sim_quiet_no_success with (pre := pre) (c := c) (post := post)
        in Hd.
    + by apply sim_quiet_no_success with (pre := pre) (c := c) (post := post)
        in Hd.
Qed.

Lemma early_termination_witness :
  (fst (Live.searchAgent 5 live_demo_world Live.knowledgeBase)
   = Live.Returned "Target") ∧
  (fst (Sim.agentLoop 5 (Some "case notes") sim_failing Sim.knowledgeBase)
   = Sim.Returned "OLSZTYN").
Proof.
  split.
  - apply (proj1 early_termination 5 live_demo_world Live.knowledgeBase
             [Live.CallGetData Live.locations "NodeA";
              Live.HttpLookup Live.locations "NodeA";
              Live.CallGetData Live.locations "NodeB";
              Live.HttpLookup Live.locations "NodeB";
              Live.CallGetData Live.entities "E1";
              Live.HttpLookup Live.entities "E1";
              Live.HttpValidate "Target"]
             "Target" []).
    vm_compute. reflexivity.
  - apply (proj2 early_termination 5 (Some "case notes") sim_failing
             Sim.knowledgeBase
             [Sim.AskModel;
              Sim.CallGetData Sim.places "Gdansk";
              Sim.TableLookup Sim.places "Gdansk"; Sim.AskModel;
              Sim.CallGetData Sim.places "Poznan";
              Sim.TableLookup Sim.places "Poznan"; Sim.AskModel;
              Sim.CallGetData Sim.people "ECHO";
              Sim.TableLookup Sim.people "ECHO"; Sim.AskModel;
              Sim.Tested "GDANSK" false; Sim.Tested "POZNAN" false;
              Sim.Tested "WARSZAWA" false; Sim.Tested "WROCLAW" false]
             "OLSZTYN" []).
    vm_compute. reflexivity.
Defined.

(** C6, as the claim states it, fails: a text that holds a restriction
    keyword in another letter case is not classified as a failure, and its
    words are returned as names. *)
Lemma isErrorResponse_counterexample :
  spec_isRestricted "Restricted" = true ∧
  Live.isErrorResponse "Restricted" = false ∧
  let r := Live.getData (live_const_world (Some "Restricted")) Live.entities
             "E1" (Live.mkState Live.knowledgeBase [] []) in
  fst r = Some ["Restricted"] ∧
  "E1" ∉ Live.failedQueries (Live.kb (snd r)).
Proof. repeat split; compute_done. Qed.

(** C6, amended.  [getData] classifies a response as a semantic failure
    exactly when its text contains one of the restriction keywords,
    written in lower case as in [ERROR_KEYWORDS], as a case-sensitive
    substring; it then records the query in [failedQueries] and returns
    absent, and it does not record the query otherwise. *)
Theorem isErrorResponse_case_sensitive (w : Live.World) ep q (s : Live.State)
    message :
  q ∉ Live.failedQueries (Live.kb s) →
  Live.httpLookup w (length (Live.log s) + 1) ep q
  = Live.HttpOk (Some message) →
  (Live.isErrorResponse message = true ↔
   ∃ keyword pre post,
     keyword ∈ Live.ERROR_KEYWORDS ∧ message = pre +:+ keyword +:+ post) ∧
  (Live.isErrorResponse message = true →
   fst (Live.getData w ep q s) = None ∧
   Live.failedQueries (Live.kb (snd (Live.getData w ep q s)))
   = {[q]} ∪ Live.failedQueries (Live.kb s)) ∧
  (Live.isErrorResponse message = false →
   Live.failedQueries (Live.kb (snd (Live.getData w ep q s)))
   = Live.failedQueries (Live.kb s)).
Proof.
  intros Hq Hresp. split; [apply isErrorResponse_spec|].
  unfold Live.getData. simpl. rewrite decide_False by done.
  rewrite length_app. simpl. rewrite Hresp. split.
  - intros Herr. by rewrite Herr, (isErrorResponse_truthy _ Herr).
  - intros Herr. rewrite Herr, andb_false_r. by destruct (JS.truthy message).
Qed.

Lemma isErrorResponse_case_sensitive_witness :
  let w := live_const_world (Some "restricted data") in
  let s := Live.mkState Live.knowledgeBase [] [] in
  Live.isErrorResponse "restricted data" = true ∧
  fst (Live.getData w Live.entities "E1" s) = None ∧
  Live.failedQueries (Live.kb (snd (Live.getData w Live.entities "E1" s)))
  = {[ "E1" ]} ∪ Live.failedQueries (Live.kb s).
Proof.
  pose proof (isErrorResponse_case_sensitive
                (live_const_world (Some "restricted data")) Live.entities "E1"
                (Live.mkState Live.knowledgeBase [] []) "restricted data"
                (not_elem_of_empty _) eq_refl) as (_ & H & _).
  split; [reflexivity|]. apply H. reflexivity.
Defined.

(** C7.  [testTarget] asks the validation endpoint at most once per
    candidate.  For a candidate already in [testedTargets] it returns false,
    sends no request and leaves knowledge base and queue as they are.
    Otherwise the candidate is in [testedTargets] whatever the endpoint
    answers (it is added before the request), exactly one request is sent,
    and every later call returns false without a request.  Over a whole run
    of [searchAgent] no candidate is sent to the endpoint twice.  The
    simulated [testLocation] sends no request at all and remembers the
    candidates by their upper-case name in the same way. *)
Theorem testTarget_at_most_once :
  (∀ (w : Live.World) c (s : Live.State),
      c ∈ Live.testedTargets (Live.kb s) →
      Live.testTarget w c s = (false, Live.record (Live.Tested c false) s)) ∧
  (∀ (w : Live.World) c (s : Live.State),
      c ∉ Live.testedTargets (Live.kb s) →
      let s' := snd (Live.testTarget w c s) in
      c ∈ Live.testedTargets (Live.kb s') ∧
      Live.validated (Live.log s') = Live.validated (Live.log s) ++ [c] ∧
      ∀ w', Live.testTarget w' c s'
            = (false, Live.record (Live.Tested c false) s')) ∧
  (∀ fuel (w : Live.World) k,
      NoDup (Live.validated (Live.log (snd (Live.searchAgent fuel w k))))) ∧
  (∀ c (s : Sim.State),
      JS.toUpperCase c ∈ Sim.testedLocations (Sim.kb s) →
      Sim.testLocation c s = (false, Sim.record (Sim.Tested c false) s)) ∧
  (∀ c (s : Sim.State),
      JS.toUpperCase c ∉ Sim.testedLocations (Sim.kb s) →
      JS.toUpperCase c
      ∈ Sim.testedLocations (Sim.kb (snd (Sim.testLocation c s)))).
Proof.
  split; [exact live_testTarget_tested|]. split; [|split; [|split]].
  - intros w c s Hc s'.
    destruct (live_testTarget_fresh w c s Hc) as (_ & Ht & Hlog).
    assert (c ∈ Live.testedTargets (Live.kb s')) as Hin
      by (unfold s'; rewrite Ht; apply elem_of_union_l, elem_of_singleton_2;
          done).
    split; [done|]. split.
    + unfold s'. rewrite Hlog. unfold Live.validated. by rewrite omap_app.
    + intros w'. by apply live_testTarget_tested.
  - exact live_searchAgent_once.
  - intros c s Hc. unfold Sim.testLocation. by rewrite decide_True.
  - intros c s Hc. unfold Sim.testLocation. rewrite decide_False by done.
    case_decide; simpl; apply elem_of_union_l, elem_of_singleton_2; done.
Qed.

Lemma testTarget_at_most_once_witness :
  let s := snd (Live.searchAgent 5 live_demo_world Live.knowledgeBase) in
  ("Target" ∈ Live.testedTargets (Live.kb s)) ∧
  Live.testTarget live_demo_world "Target" s
  = (false, Live.record (Live.Tested "Target" false) s).
Proof.
  split; [compute_done|].
  apply (proj1 testTarget_at_most_once live_demo_world "Target").
  compute_done.
Defined.

(** C8.  In both variants [getData] on a query that is in [failedQueries]
    returns absent, performs no lookup and leaves the knowledge base as it
    is: the log gains the record of the call and nothing else.  A second
    call behaves the same, so that after two calls the knowledge base is
    what it was after one. *)
Theorem getData_failed_is_idempotent :
  (∀ (w : Live.World) ep q (s : Live.State),
      q ∈ Live.failedQueries (Live.kb s) →
      let once := Live.getData w ep q s in
      let twice := Live.getData w ep q (snd once) in
      fst once = None ∧ Live.kb (snd once) = Live.kb s ∧
      Live.log (snd once) = Live.log s ++ [Live.CallGetData ep q] ∧
      Live.lookedUp (Live.log (snd once)) = Live.lookedUp (Live.log s) ∧
      fst twice = None ∧ Live.kb (snd twice) = Live.kb (snd once) ∧
      Live.lookedUp (Live.log (snd twice)) = Live.lookedUp (Live.log s)) ∧
  (∀ ep q (s : Sim.State),
      q ∈ Sim.failedQueries (Sim.kb s) →
      let once := Sim.getData ep q s in
      let twice := Sim.getData ep q (snd once) in
      fst once = None ∧ Sim.kb (snd once) = Sim.kb s ∧
      Sim.log (snd once) = Sim.log s ++ [Sim.CallGetData ep q] ∧
      fst twice = None ∧ Sim.kb (snd twice) = Sim.kb (snd once) ∧
      Sim.log (snd twice)
      = Sim.log s ++ [Sim.CallGetData ep q; Sim.CallGetData ep q]).
Proof.
  split.
  - intros w ep q s Hq once twice. unfold twice, once.
    rewrite (live_getData_failed w ep q s Hq). simpl.
    rewrite (live_getData_failed w ep q (Live.record _ s) Hq). simpl.
    unfold Live.lookedUp. rewrite !omap_app. simpl. by rewrite !app_nil_r.
  - intros ep q s Hq once twice. unfold twice, once.
    rewrite (sim_getData_failed ep q s Hq). simpl.
    rewrite (sim_getData_failed ep q (Sim.record _ s) Hq). simpl.
    by rewrite <- app_assoc.
Qed.

Lemma getData_failed_is_idempotent_witness :
  let s := snd (Live.searchAgent 5 live_demo_world Live.knowledgeBase) in
  ("NodeB" ∈ Live.failedQueries (Live.kb s)) ∧
  fst (Live.getData live_demo_world Live.locations "NodeB" s) = None ∧
  Live.kb (snd (Live.getData live_demo_world Live.locations "NodeB" s))
  = Live.kb s.
Proof.
  split; [compute_done|].
  pose proof (proj1 getData_failed_is_idempotent live_demo_world
                Live.locations "NodeB"
                (snd (Live.searchAgent 5 live_demo_world Live.knowledgeBase)))
    as H.
  destruct H as (H1 & H2 & _); [compute_done | by split].
Defined.

(** C9.  A run in which every advisor call raises a transport failure is,
    step for step, the run in which every advisor call answers the fallback
    token: outcome, knowledge base, queue and log are the same, for every
    bound on the loop, context file and initial knowledge base.  Started
    from the empty knowledge base with a readable context file, it returns
    (the target) within five turns of the loop. *)
Theorem advisor_fail_soft (fuel : nat) (content : string) :
  JS.truthy (JS.trim content) = true →
  5 ≤ fuel →
  fst (Sim.agentLoop fuel (Some content) sim_failing Sim.knowledgeBase)
  = Sim.Returned "OLSZTYN" ∧
  ∀ n dataFile k,
    Sim.agentLoop n dataFile sim_failing k
    = Sim.agentLoop n dataFile sim_echoing k.
Proof.
  intros Hc Hfuel. split; [by apply sim_agentLoop_finds|].
  intros n dataFile k. apply sim_agentLoop_ext, sim_askModel_fail_soft.
Qed.

Lemma advisor_fail_soft_witness :
  JS.truthy (JS.trim "case notes") = true ∧ 5 ≤ 5 ∧
  fst (Sim.agentLoop 5 (Some "case notes") sim_failing Sim.knowledgeBase)
  = Sim.Returned "OLSZTYN" ∧
  Sim.agentLoop 5 (Some "case notes") sim_failing Sim.knowledgeBase
  = Sim.agentLoop 5 (Some "case notes") sim_echoing Sim.knowledgeBase.
Proof.
  split; [reflexivity|]. split; [lia|].
  destruct (advisor_fail_soft 5 "case notes" eq_refl (le_n 5)) as [H1 H2].
  split; [exact H1 | apply H2].
Defined.

(** C10.  In the simulated variant the failure cache is keyed by the query
    as written, while the table is read under the upper-case query.  The
    queries Gdansk and GDANSK differ in letter case only and read the same
    table entry; once the failure of Gdansk is recorded (no person has that
    name), a fetch of Gdansk is cut short, but a fetch of GDANSK is not: it
    reads the table and returns the people of the city. *)
Theorem failedQueries_keyed_by_raw_query :
  ∃ q1 q2,
    q1 ≠ q2 ∧ JS.toUpperCase q1 = JS.toUpperCase q2 ∧
    let s1 := snd (Sim.getData Sim.people q1
                     (Sim.mkState Sim.knowledgeBase [] [])) in
    q1 ∈ Sim.failedQueries (Sim.kb s1) ∧
    Sim.getData Sim.places q1 s1
    = (None, Sim.record (Sim.CallGetData Sim.places q1) s1) ∧
    fst (Sim.getData Sim.places q2 s1) = Some ["MONIKA"; "PAWEL"; "ECHO"] ∧
    Sim.TableLookup Sim.places q2
    ∈ Sim.log (snd (Sim.getData Sim.places q2 s1)).
Proof.
  exists "Gdansk", "GDANSK". split; [done|]. split; [done|].
  simpl. split; [compute_done|]. split; [|split].
  - apply sim_getData_failed. compute_done.
  - by vm_compute.
  - vm_compute. set_solver.
Qed.

(** ** Further properties of the live-API variant *)

Section LiveRun.
Import Live.

Implicit Types (s : State) (w : World) (q target : string).

(** *** What the helper functions leave alone *)

Lemma live_testTarget_frame w target s :
  queue (snd (testTarget w target s)) = queue s ∧
  visitedLocations (kb (snd (testTarget w target s))) = visitedLocations (kb s) ∧
  visitedEntities (kb (snd (testTarget w target s))) = visitedEntities (kb s) ∧
  failedQueries (kb (snd (testTarget w target s))) = failedQueries (kb s).
Proof. unfold testTarget. by case_decide. Qed.

Lemma live_queue_ok_frame s s' :
  queue s' = queue s →
  visitedLocations (kb s') = visitedLocations (kb s) →
  visitedEntities (kb s') = visitedEntities (kb s) →
  live_queue_ok s → live_queue_ok s'.
Proof.
  intros Hq Hl He [Hnd Hm]. split; [by rewrite Hq|].
  intros n Hn. rewrite Hq in Hn. specialize (Hm n Hn).
  unfold live_marked in *. destruct (type n); congruence.
Qed.

Lemma live_queue_ok_push n s s' :
  queue s' = queue s ++ [n] →
  visitedLocations (kb s) ⊆ visitedLocations (kb s') →
  visitedEntities (kb s) ⊆ visitedEntities (kb s') →
  ¬ live_marked s n → live_marked s' n →
  live_queue_ok s → live_queue_ok s'.
Proof.
  intros Hq Hl He Hfresh Hnew [Hnd Hm]. split.
  - rewrite Hq. apply NoDup_app. split; [done|]. split; [|apply NoDup_singleton].
    intros x Hx ->%list_elem_of_singleton. by apply Hfresh, Hm.
  - intros x Hx. rewrite Hq in Hx.
    apply elem_of_app in Hx as [Hx | ->%list_elem_of_singleton]; [|done].
    specialize (Hm x Hx). unfold live_marked in *.
    destruct (type x); set_solver.
Qed.

Lemma live_enqueueLocation_ok l s :
  live_queue_ok s → live_queue_ok (enqueueLocation l s).
Proof.
  intros Hs. unfold enqueueLocation. case_decide as Hv; [done|].
  apply (live_queue_ok_push (mkNode location l) s); simpl; try done.
  - set_solver.
  - unfold live_marked. simpl. set_solver.
Qed.

Lemma live_enqueueEntity_ok e s :
  live_queue_ok s → live_queue_ok (enqueueEntity e s).
Proof.
  intros Hs. unfold enqueueEntity. case_decide as Hv; [done|].
  apply (live_queue_ok_push (mkNode entity e) s); simpl; try done.
  - set_solver.
  - unfold live_marked. simpl. set_solver.
Qed.

Lemma live_forEntities_ok es s :
  live_queue_ok s → live_queue_ok (forEntities es s).
Proof.
  revert s. induction es as [|e es IH]; intros s Hs; simpl; [done|].
  by apply IH, live_enqueueEntity_ok.
Qed.

Lemma live_forLocations_ok w ls s :
  live_queue_ok s → live_queue_ok (snd (forLocations w ls s)).
Proof.
  revert s. induction ls as [|l ls IH]; intros s Hs; simpl; [done|].
  destruct (shouldTestTarget l s); [|by apply IH].
  destruct (live_testTarget_frame w l s) as (Hq & Hl & He & _).
  destruct (testTarget w l s) as [[] s1]; simpl in *.
  - by apply (live_queue_ok_frame s).
  - apply IH, live_enqueueLocation_ok. by apply (live_queue_ok_frame s).
Qed.

Lemma live_processNode_ok w current s :
  live_queue_ok s → live_queue_ok (snd (processNode w current s)).
Proof.
  intros Hs. unfold processNode. destruct (type current).
  - destruct (live_getData_kb_queue w locations (value current) s)
      as (Hq & _ & Hl & He).
    destruct (getData w locations (value current) s) as [[es|] s1];
      simpl in *; [|by apply (live_queue_ok_frame s)].
    destruct (0 <? length es); simpl; [|by apply (live_queue_ok_frame s)].
    apply live_forEntities_ok. by apply (live_queue_ok_frame s).
  - destruct (live_getData_kb_queue w entities (value current) s)
      as (Hq & _ & Hl & He).
    destruct (getData w entities (value current) s) as [[ls|] s1];
      simpl in *; [|by apply (live_queue_ok_frame s)].
    destruct (0 <? length ls); simpl; [|by apply (live_queue_ok_frame s)].
    apply live_forLocations_ok. by apply (live_queue_ok_frame s).
Qed.

Lemma live_drain_ok fuel w i s :
  live_queue_ok s → live_queue_ok (snd (drain fuel w i s)).
Proof.
  revert i s. induction fuel as [|fuel IH]; intros i s Hs; simpl.
  - by destruct (queue s !! i).
  - destruct (queue s !! i) as [current|]; simpl; [|done].
    pose proof (live_processNode_ok w current s Hs) as Hp.
    destruct (processNode w current s) as [[c|] s1]; simpl in *; [done|].
    by apply IH.
Qed.

Lemma live_seed_ok k : live_queue_ok (seed (mkState k [] [])).
Proof.
  split; simpl.
  - change (NoDup [mkNode location "NodeA"; mkNode location "NodeB"]).
    compute_done.
  - intros n Hn. unfold live_marked.
    repeat (apply elem_of_cons in Hn as [-> | Hn]); simpl;
      [set_solver | set_solver | by apply elem_of_nil in Hn].
Qed.

End LiveRun.

(** X1.  In every run of [searchAgent], whatever the knowledge base it
    starts from and whatever the data source and the validator answer, the
    queue never holds the same node (type and exact name) twice, and every
    queued node is in the visited set of its type. *)
Theorem searchAgent_queue_no_duplicates fuel (w : Live.World) k :
  NoDup (Live.queue (snd (Live.searchAgent fuel w k))) ∧
  ∀ n, n ∈ Live.queue (snd (Live.searchAgent fuel w k)) →
       live_marked (snd (Live.searchAgent fuel w k)) n.
Proof. apply live_drain_ok, live_seed_ok. Qed.

Section LiveTests.
Import Live.

Implicit Types (s : State) (w : World) (q target : string).

Lemma live_spares_snoc l e :
  live_spares_initial (l ++ [e]) ↔
  live_spares_initial l ∧
  match e with
  | Tested t _ => t ∉ INITIAL_NODES
  | HttpValidate t => t ∉ INITIAL_NODES
  | _ => True
  end.
Proof. unfold live_spares_initial. by rewrite Forall_app, Forall_singleton. Qed.

Lemma live_getData_spares w ep q s :
  live_spares_initial (log s) →
  live_spares_initial (log (snd (getData w ep q s))).
Proof.
  intros Hs. destruct (live_getData_log w ep q s) as [-> | ->].
  - by apply live_spares_snoc.
  - change [CallGetData ep q; HttpLookup ep q]
      with ([CallGetData ep q] ++ [HttpLookup ep q]).
    rewrite app_assoc. apply live_spares_snoc. split; [|done].
    by apply live_spares_snoc.
Qed.

Lemma live_testTarget_spares w target s :
  target ∉ INITIAL_NODES →
  live_spares_initial (log s) →
  live_spares_initial (log (snd (testTarget w target s))).
Proof.
  intros Ht Hs. unfold testTarget. case_decide; simpl.
  - by apply live_spares_snoc.
  - apply live_spares_snoc. split; [|done]. by apply live_spares_snoc.
Qed.

Lemma live_shouldTestTarget_true target s :
  shouldTestTarget target s = true →
  (target ∉ testedTargets (kb s)) ∧ target ∉ INITIAL_NODES.
Proof.
  unfold shouldTestTarget. rewrite andb_true_iff, !negb_true_iff.
  by rewrite !bool_decide_eq_false.
Qed.

Lemma live_forLocations_spares w ls s :
  live_spares_initial (log s) →
  live_spares_initial (log (snd (forLocations w ls s))).
Proof.
  revert s. induction ls as [|l ls IH]; intros s Hs; simpl; [done|].
  destruct (shouldTestTarget l s) eqn:Hshould; [|by apply IH].
  apply live_shouldTestTarget_true in Hshould as [_ Hl].
  pose proof (live_testTarget_spares w l s Hl Hs) as Ht.
  destruct (testTarget w l s) as [[] s1]; simpl in *; [done|].
  apply IH. by destruct (live_enqueueLocation_frame l s1) as [-> _].
Qed.

Lemma live_processNode_spares w current s :
  live_spares_initial (log s) →
  live_spares_initial (log (snd (processNode w current s))).
Proof.
  intros Hs. unfold processNode. destruct (type current).
  - pose proof (live_getData_spares w locations (value current) s Hs) as Hg.
    destruct (getData w locations (value current) s) as [[es|] s1];
      simpl in *; [|done].
    destruct (0 <? length es); simpl; [|done].
    by destruct (live_forEntities_frame es
                   (setLocationEntities (value current) es s1)) as [-> _].
  - pose proof (live_getData_spares w entities (value current) s Hs) as Hg.
    destruct (getData w entities (value current) s) as [[ls|] s1];
      simpl in *; [|done].
    destruct (0 <? length ls); simpl; [|done].
    by apply live_forLocations_spares.
Qed.

Lemma live_drain_spares fuel w i s :
  live_spares_initial (log s) →
  live_spares_initial (log (snd (drain fuel w i s))).
Proof.
  revert i s. induction fuel as [|fuel IH]; intros i s Hs; simpl.
  - by destruct (queue s !! i).
  - destruct (queue s !! i) as [current|]; simpl; [|done].
    pose proof (live_processNode_spares w current s Hs) as Hp.
    destruct (processNode w current s) as [[c|] s1]; simpl in *; [done|].
    by apply IH.
Qed.

(** *** The queue only grows at its end; lookups follow the queue *)

Lemma live_forEntities_queue es s :
  ∃ extra, queue (forEntities es s) = queue s ++ extra.
Proof.
  revert s. induction es as [|e es IH]; intros s; simpl.
  - exists []. by rewrite app_nil_r.
  - destruct (IH (enqueueEntity e s)) as [extra ->].
    unfold enqueueEntity. case_decide; simpl; [by eexists|].
    rewrite <- app_assoc. by eexists.
Qed.

Lemma live_forLocations_queue w ls s :
  ∃ extra, queue (snd (forLocations w ls s)) = queue s ++ extra.
Proof.
  revert s. induction ls as [|l ls IH]; intros s; simpl.
  - exists []. by rewrite app_nil_r.
  - destruct (shouldTestTarget l s); [|by apply IH].
    destruct (live_testTarget_frame w l s) as (Hq & _).
    destruct (testTarget w l s) as [[] s1]; simpl in *.
    + exists []. by rewrite app_nil_r.
    + destruct (IH (enqueueLocation l s1)) as [extra ->].
      unfold enqueueLocation. case_decide; simpl; rewrite Hq; [by eexists|].
      rewrite <- app_assoc. by eexists.
Qed.

Lemma live_processNode_queue w current s :
  ∃ extra, queue (snd (processNode w current s)) = queue s ++ extra.
Proof.
  unfold processNode. destruct (type current).
  - destruct (live_getData_kb_queue w locations (value current) s) as (Hq & _).
    destruct (getData w locations (value current) s) as [[es|] s1];
      simpl in *; [|exists []; by rewrite app_nil_r].
    destruct (0 <? length es); simpl; [|exists []; by rewrite app_nil_r].
    destruct (live_forEntities_queue es
                (setLocationEntities (value current) es s1)) as [extra ->].
    simpl. rewrite Hq. by eexists.
  - destruct (live_getData_kb_queue w entities (value current) s) as (Hq & _).
    destruct (getData w entities (value current) s) as [[ls|] s1];
      simpl in *; [|exists []; by rewrite app_nil_r].
    destruct (0 <? length ls); simpl; [|exists []; by rewrite app_nil_r].
    destruct (live_forLocations_queue w ls
                (setEntityLocations (value current) ls s1)) as [extra ->].
    simpl. rewrite Hq. by eexists.
Qed.

Lemma live_getData_lookedUp w ep q s :
  lookedUp (log (snd (getData w ep q s))) = lookedUp (log s) ∨
  lookedUp (log (snd (getData w ep q s))) = lookedUp (log s) ++ [(ep, q)].
Proof.
  unfold lookedUp.
  destruct (live_getData_log w ep q s) as [-> | ->]; rewrite omap_app; simpl.
  - left. by rewrite app_nil_r.
  - by right.
Qed.

Lemma live_forLocations_lookedUp w ls s :
  lookedUp (log (snd (forLocations w ls s))) = lookedUp (log s).
Proof.
  revert s. induction ls as [|l ls IH]; intros s; simpl; [done|].
  destruct (shouldTestTarget l s); [|by apply IH].
  assert (lookedUp (log (snd (testTarget w l s))) = lookedUp (log s)) as Ht.
  { unfold testTarget, lookedUp. case_decide; simpl; rewrite !omap_app; simpl;
      by rewrite !app_nil_r. }
  destruct (testTarget w l s) as [[] s1]; simpl in *; [done|].
  rewrite IH. by destruct (live_enqueueLocation_frame l s1) as [-> _].
Qed.

Lemma live_processNode_lookedUp w current s :
  lookedUp (log (snd (processNode w current s))) = lookedUp (log s) ∨
  lookedUp (log (snd (processNode w current s)))
  = lookedUp (log s) ++ [live_request current].
Proof.
  unfold processNode, live_request. destruct (type current).
  - pose proof (live_getData_lookedUp w locations (value current) s) as Hg.
    destruct (getData w locations (value current) s) as [[es|] s1];
      simpl in *; [|done].
    destruct (0 <? length es); simpl; [|done].
    by destruct (live_forEntities_frame es
                   (setLocationEntities (value current) es s1)) as [-> _].
  - pose proof (live_getData_lookedUp w entities (value current) s) as Hg.
    destruct (getData w entities (value current) s) as [[ls|] s1];
      simpl in *; [|done].
    destruct (0 <? length ls); simpl; [|done].
    by rewrite live_forLocations_lookedUp.
Qed.

Lemma live_processNode_lookups_ok w i current s :
  queue s !! i = Some current →
  live_lookups_ok i s →
  live_lookups_ok (S i) (snd (processNode w current s)).
Proof.
  intros Hi Hs. unfold live_lookups_ok in *.
  destruct (live_processNode_queue w current s) as [extra ->].
  rewrite (take_S_r _ _ current) by (by apply lookup_app_l_Some).
  rewrite take_app_le by (apply lookup_lt_Some in Hi; lia).
  rewrite fmap_app. simpl.
  destruct (live_processNode_lookedUp w current s) as [-> | ->].
  - by apply sublist_inserts_r.
  - by apply sublist_app.
Qed.

Lemma live_drain_lookups_ok fuel w i s :
  live_lookups_ok i s →
  ∃ j, live_lookups_ok j (snd (drain fuel w i s)).
Proof.
  revert i s. induction fuel as [|fuel IH]; intros i s Hs; simpl.
  - exists i. by destruct (queue s !! i).
  - destruct (queue s !! i) as [current|] eqn:Hi; simpl; [|by exists i].
    pose proof (live_processNode_lookups_ok w i current s Hi Hs) as Hp.
    destruct (processNode w current s) as [[c|] s1]; simpl in *;
      [by exists (S i) | by apply IH].
Qed.

Lemma live_request_inj : Inj (=) (=) live_request.
Proof.
  intros [t1 v1] [t2 v2]. unfold live_request. simpl.
  destruct t1, t2; intros Heq; by simplify_eq.
Qed.

Lemma live_lookups_NoDup i s :
  live_queue_ok s → live_lookups_ok i s → NoDup (lookedUp (log s)).
Proof.
  intros [Hnd _] Hs. refine (sublist_NoDup _ _ _ Hs).
  apply NoDup_fmap_2; [apply live_request_inj|].
  by apply (sublist_NoDup _ _ Hnd), sublist_take.
Qed.

End LiveTests.

(** X2.  In every run of [searchAgent] no member of [INITIAL_NODES] (by its
    exact name) is handed to [testTarget] or sent to the validation
    endpoint. *)
Theorem searchAgent_never_tests_initial_node fuel (w : Live.World) k t :
  t ∈ Live.testedAt (Live.log (snd (Live.searchAgent fuel w k))) ∨
  t ∈ Live.validated (Live.log (snd (Live.searchAgent fuel w k))) →
  t ∉ Live.INITIAL_NODES.
Proof.
  pose proof (live_drain_spares fuel w 0
                (Live.seed (Live.mkState k [] [])) (Forall_nil_2 _)) as Hs.
  unfold Live.searchAgent. revert Hs.
  generalize (Live.log (snd (Live.drain fuel w 0
                               (Live.seed (Live.mkState k [] []))))).
  intros l Hs Ht. unfold live_spares_initial in Hs.
  rewrite Forall_forall in Hs.
  unfold Live.testedAt, Live.validated in Ht.
  destruct Ht as [Ht | Ht]; apply list_elem_of_omap in Ht as [e [He Heq]];
    specialize (Hs e He); destruct e; by simplify_eq.
Qed.

Lemma searchAgent_never_tests_initial_node_witness :
  ("Target" ∈ Live.testedAt
     (Live.log (snd (Live.searchAgent 5 live_demo_world Live.knowledgeBase))))
  ∧ "Target" ∉ Live.INITIAL_NODES.
Proof.
  split; [compute_done|].
  apply (searchAgent_never_tests_initial_node 5 live_demo_world
           Live.knowledgeBase "Target").
  left. compute_done.
Defined.

(** X3.  In every run of [searchAgent] the lookups sent to the data source
    are pairwise different: no (endpoint, query) pair is requested twice. *)
Theorem searchAgent_lookups_pairwise_different fuel (w : Live.World) k :
  NoDup (Live.lookedUp (Live.log (snd (Live.searchAgent fuel w k)))).
Proof.
  unfold Live.searchAgent.
  destruct (live_drain_lookups_ok fuel w 0 (Live.seed (Live.mkState k [] [])))
    as [j Hj]; [apply sublist_nil_l|].
  apply (live_lookups_NoDup j); [|done].
  apply live_drain_ok, live_seed_ok.
Qed.

Section LiveGetData.
Import Live.

Implicit Types (s : State) (w : World) (q target : string).



End LiveGetData.

(** X4.  The failure cache of the live [getData] is keyed by the query
    alone.  When a lookup is answered by a transport error or by a text that
    is classified as an error, the call returns absent and the query is in
    [failedQueries]; from then on [getData] for that query returns absent
    without a request on every endpoint, not only on the one that failed. *)
Theorem getData_failure_blocks_every_endpoint (w : Live.World) ep q
    (s : Live.State) :
  q ∉ Live.failedQueries (Live.kb s) →
  match Live.httpLookup w (length (Live.log s) + 1) ep q with
  | Live.HttpError => True
  | Live.HttpOk (Some m) => Live.isErrorResponse m = true
  | Live.HttpOk None => False
  end →
  fst (Live.getData w ep q s) = None ∧
  q ∈ Live.failedQueries (Live.kb (snd (Live.getData w ep q s))) ∧
  ∀ w' ep',
    Live.getData w' ep' q (snd (Live.getData w ep q s))
    = (None, Live.record (Live.CallGetData ep' q) (snd (Live.getData w ep q s))).
Proof.
  intros Hq Hresp.
  assert (fst (Live.getData w ep q s) = None ∧
          q ∈ Live.failedQueries (Live.kb (snd (Live.getData w ep q s))))
    as [Hnone Hin].
  { unfold Live.getData. simpl. rewrite decide_False by done.
    rewrite length_app. simpl.
    destruct (Live.httpLookup w _ ep q) as [|[m|]]; simpl; [| |done].
    - split; [done|]. apply elem_of_union_l. by apply elem_of_singleton.
    - rewrite Hresp, (isErrorResponse_truthy _ Hresp). simpl.
      split; [done|]. apply elem_of_union_l. by apply elem_of_singleton. }
  split; [done|]. split; [done|].
  intros w' ep'. by apply live_getData_failed.
Qed.

Lemma getData_failure_blocks_every_endpoint_witness :
  let s := Live.mkState Live.knowledgeBase [] [] in
  let s1 := snd (Live.getData live_demo_world Live.locations "E1" s) in
  Live.getData live_demo_world Live.entities "E1" s
  = (Some ["Target"; "NodeA"],
     Live.record (Live.HttpLookup Live.entities "E1")
       (Live.record (Live.CallGetData Live.entities "E1") s)) ∧
  Live.getData live_demo_world Live.entities "E1" s1
  = (None, Live.record (Live.CallGetData Live.entities "E1") s1).
Proof.
  split; [reflexivity|].
  apply (getData_failure_blocks_every_endpoint live_demo_world Live.locations
           "E1" (Live.mkState Live.knowledgeBase [] []));
    [apply not_elem_of_empty | exact I].
Defined.



Section LiveResult.
Import Live.

Implicit Types (s : State) (w : World) (q target : string).

Lemma live_testTarget_accepted w target s :
  fst (testTarget w target s) = true →
  live_accepted w target (log (snd (testTarget w target s))).
Proof.
  unfold testTarget. case_decide; simpl; [done|]. intros Hok.
  exists (log s). rewrite Hok. split; [by rewrite <- app_assoc | done].
Qed.

Lemma live_forLocations_accepted w ls s c :
  fst (forLocations w ls s) = Some c →
  live_accepted w c (log (snd (forLocations w ls s))).
Proof.
  revert s. induction ls as [|l ls IH]; intros s; simpl; [done|].
  destruct (shouldTestTarget l s); [|by apply IH].
  pose proof (live_testTarget_accepted w l s) as Ht.
  destruct (testTarget w l s) as [[] s1]; simpl in *.
  - intros [= <-]. by apply Ht.
  - apply IH.
Qed.

Lemma live_processNode_accepted w current s c :
  fst (processNode w current s) = Some c →
  live_accepted w c (log (snd (processNode w current s))).
Proof.
  unfold processNode. destruct (type current).
  - destruct (getData w locations (value current) s) as [[es|] s1];
      simpl; [|done].
    by destruct (0 <? length es).
  - destruct (getData w entities (value current) s) as [[ls|] s1];
      simpl; [|done].
    destruct (0 <? length ls); simpl; [|done].
    apply live_forLocations_accepted.
Qed.

Lemma live_drain_sound fuel w i s :
  live_quiet (log s) →
  match fst (drain fuel w i s) with
  | Returned c =>
      live_accepted w c (log (snd (drain fuel w i s))) ∨
      (c = "No target found" ∧ live_quiet (log (snd (drain fuel w i s))) ∧
       length (queue (snd (drain fuel w i s))) ≤ i + fuel)
  | OutOfFuel => live_quiet (log (snd (drain fuel w i s)))
  end.
Proof.
  revert i s. induction fuel as [|fuel IH]; intros i s Hq; simpl.
  - destruct (queue s !! i) eqn:Hi; simpl; [done|]. right.
    apply lookup_ge_None in Hi. split; [done|]. split; [done|lia].
  - destruct (queue s !! i) as [current|] eqn:Hi; simpl.
    + pose proof (live_processNode_stops w current s Hq) as Hp.
      pose proof (live_processNode_accepted w current s) as Ha.
      destruct (processNode w current s) as [[c|] s1]; simpl in *.
      * left. by apply Ha.
      * specialize (IH (S i) s1 Hp).
        destruct (fst (drain fuel w (S i) s1)); [|done].
        destruct IH as [IH | (-> & IH1 & IH2)]; [by left|].
        right. split; [done|]. split; [done|lia].
    + right. apply lookup_ge_None in Hi. split; [done|]. split; [done|lia].
Qed.

(** *** Nothing is removed from the knowledge base *)

Lemma live_grows_refl k : live_grows k k.
Proof. by repeat split. Qed.

Lemma live_grows_trans k1 k2 k3 :
  live_grows k1 k2 → live_grows k2 k3 → live_grows k1 k3.
Proof.
  intros (?&?&?&?&?&?) (?&?&?&?&?&?). repeat split; set_solver.
Qed.

Lemma live_getData_grows w ep q s :
  live_grows (kb s) (kb (snd (getData w ep q s))).
Proof.
  unfold getData. simpl. case_decide; [apply live_grows_refl|].
  destruct (httpLookup _ _ _ _) as [|[message|]]; simpl;
    [| destruct (JS.truthy message && isErrorResponse message);
       [| destruct (JS.truthy message)] |];
    simpl; try apply live_grows_refl; repeat split; simpl; set_solver.
Qed.

Lemma live_testTarget_grows w target s :
  live_grows (kb s) (kb (snd (testTarget w target s))).
Proof.
  unfold testTarget. case_decide; simpl; [apply live_grows_refl|].
  repeat split; simpl; set_solver.
Qed.

Lemma live_enqueueLocation_grows l s :
  live_grows (kb s) (kb (enqueueLocation l s)).
Proof.
  unfold enqueueLocation. case_decide; simpl; [apply live_grows_refl|].
  repeat split; simpl; set_solver.
Qed.

Lemma live_forEntities_grows es s :
  live_grows (kb s) (kb (forEntities es s)).
Proof.
  revert s. induction es as [|e es IH]; intros s; simpl;
    [apply live_grows_refl|].
  eapply live_grows_trans; [|apply IH].
  unfold enqueueEntity. case_decide; simpl; [apply live_grows_refl|].
  repeat split; simpl; set_solver.
Qed.

Lemma live_forLocations_grows w ls s :
  live_grows (kb s) (kb (snd (forLocations w ls s))).
Proof.
  revert s. induction ls as [|l ls IH]; intros s; simpl;
    [apply live_grows_refl|].
  destruct (shouldTestTarget l s); [|by apply IH].
  pose proof (live_testTarget_grows w l s) as Ht.
  destruct (testTarget w l s) as [[] s1]; simpl in *; [done|].
  eapply live_grows_trans; [exact Ht|].
  eapply live_grows_trans; [apply live_enqueueLocation_grows | apply IH].
Qed.

Lemma live_processNode_grows w current s :
  live_grows (kb s) (kb (snd (processNode w current s))).
Proof.
  unfold processNode. destruct (type current).
  - pose proof (live_getData_grows w locations (value current) s) as Hg.
    destruct (getData w locations (value current) s) as [[es|] s1];
      simpl in *; [|done].
    destruct (0 <? length es); simpl; [|done].
    eapply live_grows_trans; [exact Hg|].
    eapply live_grows_trans; [|apply live_forEntities_grows].
    repeat split; simpl; try done. apply dom_insert_subseteq.
  - pose proof (live_getData_grows w entities (value current) s) as Hg.
    destruct (getData w entities (value current) s) as [[ls|] s1];
      simpl in *; [|done].
    destruct (0 <? length ls); simpl; [|done].
    eapply live_grows_trans; [exact Hg|].
    eapply live_grows_trans; [|apply live_forLocations_grows].
    repeat split; simpl; try done. apply dom_insert_subseteq.
Qed.

Lemma live_drain_grows fuel w i s :
  live_grows (kb s) (kb (snd (drain fuel w i s))).
Proof.
  revert i s. induction fuel as [|fuel IH]; intros i s; simpl.
  - destruct (queue s !! i); apply live_grows_refl.
  - destruct (queue s !! i) as [current|]; simpl; [|apply live_grows_refl].
    pose proof (live_processNode_grows w current s) as Hp.
    destruct (processNode w current s) as [[c|] s1]; simpl in *; [done|].
    eapply live_grows_trans; [exact Hp | apply IH].
Qed.

End LiveResult.

(** X6.  What [searchAgent] returns is sound.  If a run returns [c], then
    either the log ends with the validation request for [c] and the
    endpoint's answer to that very request was a success response (code 0
    and a message holding the success marker), or [c] is the sentinel, no
    test of the run succeeded and the queue is exhausted (it holds no more
    nodes than the loop made turns). *)
Theorem searchAgent_result_sound fuel (w : Live.World) k c :
  fst (Live.searchAgent fuel w k) = Live.Returned c →
  live_accepted w c (Live.log (snd (Live.searchAgent fuel w k))) ∨
  (c = "No target found" ∧
   live_quiet (Live.log (snd (Live.searchAgent fuel w k))) ∧
   length (Live.queue (snd (Live.searchAgent fuel w k))) ≤ fuel).
Proof.
  intros Hr.
  pose proof (live_drain_sound fuel w 0 (Live.seed (Live.mkState k [] []))
                (Forall_nil_2 _)) as Hd.
  unfold Live.searchAgent in *. rewrite Hr in Hd. exact Hd.
Qed.

Lemma searchAgent_result_sound_witness :
  fst (Live.searchAgent 5 live_demo_world Live.knowledgeBase)
  = Live.Returned "Target" ∧
  (live_accepted live_demo_world "Target"
     (Live.log (snd (Live.searchAgent 5 live_demo_world Live.knowledgeBase)))
   ∨ "Target" = "No target found").
Proof.
  split; [by vm_compute|].
  destruct (searchAgent_result_sound 5 live_demo_world Live.knowledgeBase
              "Target") as [H | [H _]]; [by vm_compute | by left | by right].
Defined.

(** X7.  A run of [searchAgent] removes nothing from the knowledge base:
    the visited, tested and failed sets at the end include those at the
    start, and the two edge maps keep all their keys. *)
Theorem searchAgent_knowledge_grows fuel (w : Live.World) k :
  live_grows k (Live.kb (snd (Live.searchAgent fuel w k))).
Proof.
  unfold Live.searchAgent.
  eapply live_grows_trans; [|apply live_drain_grows].
  repeat split; simpl; set_solver.
Qed.

Section LiveOrder.
Import Live.

Lemma live_drain_queue fuel w i s :
  ∃ extra, queue (snd (drain fuel w i s)) = queue s ++ extra.
Proof.
  revert i s. induction fuel as [|fuel IH]; intros i s; simpl.
  - exists []. destruct (queue s !! i); by rewrite app_nil_r.
  - destruct (queue s !! i) as [current|]; simpl;
      [|exists []; by rewrite app_nil_r].
    destruct (live_processNode_queue w current s) as [extra1 Hq1].
    destruct (processNode w current s) as [[c|] s1]; simpl in *;
      [by exists extra1|].
    destruct (IH (S i) s1) as [extra2 ->]. rewrite Hq1, <- app_assoc.
    by eexists.
Qed.

End LiveOrder.

(** X17.  [searchAgent] asks the data source in queue order: the lookups
    of a run are, in the order they were sent, the requests of nodes of the
    final queue in the order these were queued (first in, first out), and
    the queue begins with the starting nodes NodeA and NodeB. *)
Theorem searchAgent_lookups_in_queue_order fuel (w : Live.World) k :
  Live.lookedUp (Live.log (snd (Live.searchAgent fuel w k)))
    `sublist_of` (live_request <$> Live.queue (snd (Live.searchAgent fuel w k)))
  ∧ [Live.mkNode Live.location "NodeA"; Live.mkNode Live.location "NodeB"]
      `prefix_of` Live.queue (snd (Live.searchAgent fuel w k)).
Proof.
  unfold Live.searchAgent. split.
  - destruct (live_drain_lookups_ok fuel w 0
                (Live.seed (Live.mkState k [] []))) as [j Hj];
      [apply sublist_nil_l|].
    unfold live_lookups_ok in Hj. etrans; [exact Hj|].
    apply fmap_sublist, sublist_take.
  - destruct (live_drain_queue fuel w 0 (Live.seed (Live.mkState k [] [])))
      as [extra ->].
    by exists extra.
Qed.

(** ** Further properties of the simulated-data variant *)

Section SimTables.
Import Sim.

(** *** The tables of [SIMULATED_DATA] *)

Lemma sim_places_names :
  map_Forall (fun _ names =>
                Forall (fun x => mkNode person x ∈ sim_universe) names)
             SIMULATED_DATA_places.
Proof. compute_done. Qed.

Lemma sim_people_names :
  map_Forall (fun _ names =>
                Forall (fun x => mkNode city x ∈ sim_universe ∧
                                 JS.toUpperCase x = x) names)
             SIMULATED_DATA_people.
Proof. compute_done. Qed.

Lemma sim_universe_resolves :
  Forall (fun n =>
            ∃ names, sim_table (type n) !! JS.toUpperCase (value n) = Some names ∧
                     (0 <? length names) = true)
         sim_universe.
Proof. unfold sim_universe. simpl. repeat constructor; by eexists. Qed.

Lemma sim_universe_NoDup : NoDup sim_universe.
Proof. compute_done. Qed.

Lemma upperChar_idem c : JS.upperChar (JS.upperChar c) = JS.upperChar c.
Proof. by destruct c as [[] [] [] [] [] [] [] []]. Qed.

Lemma toUpperCase_idem str :
  JS.toUpperCase (JS.toUpperCase str) = JS.toUpperCase str.
Proof.
  induction str as [|c str IH]; simpl; [done|]. by rewrite upperChar_idem, IH.
Qed.

(** *** [prioritize] *)

Lemma lastIndexOf_Some xs x i :
  lastIndexOf xs x = Some i → xs !! i = Some x.
Proof.
  revert i. induction xs as [|y ys IH]; intros i; simpl; [done|].
  destruct (lastIndexOf ys x) as [j|].
  - intros [= <-]. by apply IH.
  - case_decide; [|done]. intros [= <-]. by subst.
Qed.

Lemma lastIndexOf_elem xs x : x ∈ xs → is_Some (lastIndexOf xs x).
Proof.
  induction xs as [|y ys IH]; [by intros ?%elem_of_nil|].
  intros [-> | Hin]%elem_of_cons; simpl.
  - destruct (lastIndexOf ys y); [by eexists|]. rewrite decide_True by done.
    by eexists.
  - destruct (IH Hin) as [i ->]. by eexists.
Qed.

Lemma lastIndexOf_is_last xs x i j :
  lastIndexOf xs x = Some i → i < j → xs !! j ≠ Some x.
Proof.
  revert i j. induction xs as [|y ys IH]; intros i j; simpl; [done|].
  destruct (lastIndexOf ys x) as [k|] eqn:Hk.
  - intros [= <-] Hlt. destruct j as [|j]; [lia|]. simpl.
    apply (IH k); [done | lia].
  - case_decide; [|done]. intros [= <-] Hlt. destruct j as [|j]; [lia|].
    simpl. intros Hj. apply list_elem_of_lookup_2 in Hj.
    apply lastIndexOf_elem in Hj as [k' Hk']. congruence.
Qed.

Lemma sim_prioritize_cases names ai :
  ((ai ∉ names) ∧ prioritize names ai = names) ∨
  (∃ j, lastIndexOf names ai = Some j ∧
        prioritize names ai = ai :: delete j names).
Proof.
  unfold prioritize. destruct (JS.arrayIncludes names ai) eqn:Hinc.
  - right. apply arrayIncludes_true in Hinc.
    destruct (lastIndexOf_elem names ai Hinc) as [j Hj].
    exists j. simpl. by rewrite Hj.
  - left. by apply arrayIncludes_false in Hinc.
Qed.

Lemma sim_prioritize_subset names ai x :
  x ∈ prioritize names ai → x ∈ names.
Proof.
  destruct (sim_prioritize_cases names ai) as [[_ ->] | (j & Hj & ->)]; [done|].
  intros [-> | Hx]%elem_of_cons.
  - by apply (list_elem_of_lookup_2 _ j), lastIndexOf_Some.
  - by apply list_elem_of_delete_inv in Hx.
Qed.

End SimTables.

(** X8.  [prioritize] only reorders: its result is a permutation of the
    names it is given.  A suggestion that is not among the names changes
    nothing; one that is among them is moved to the front, its last
    occurrence is taken out, and the other names keep their order. *)
Theorem prioritize_reorders (names : list string) (ai : string) :
  Sim.prioritize names ai ≡ₚ names ∧
  (ai ∉ names → Sim.prioritize names ai = names) ∧
  (ai ∈ names →
   ∃ j, names !! j = Some ai ∧
        (∀ j', j < j' → names !! j' ≠ Some ai) ∧
        Sim.prioritize names ai = ai :: delete j names).
Proof.
  destruct (sim_prioritize_cases names ai) as [[Hnot Heq] | (j & Hj & Heq)];
    rewrite Heq.
  - split; [done|]. split; [done|]. intros Hin. by destruct Hnot.
  - pose proof (lastIndexOf_Some _ _ _ Hj) as Hlook.
    split; [symmetry; by apply delete_Permutation|]. split.
    + intros Hnot. destruct Hnot. by apply list_elem_of_lookup_2 in Hlook.
    + intros _. exists j. split; [done|]. split; [|done].
      intros j' Hlt. by apply (lastIndexOf_is_last names ai j).
Qed.

Lemma prioritize_reorders_witness :
  "TOMASZ" ∈ ["PAWEL"; "MARCIN"; "TOMASZ"; "ECHO"] ∧
  ∃ j, Sim.prioritize ["PAWEL"; "MARCIN"; "TOMASZ"; "ECHO"] "TOMASZ"
       = "TOMASZ" :: delete j ["PAWEL"; "MARCIN"; "TOMASZ"; "ECHO"].
Proof.
  assert ("TOMASZ" ∈ ["PAWEL"; "MARCIN"; "TOMASZ"; "ECHO"]) as Hin
    by compute_done.
  split; [exact Hin|].
  destruct (proj2 (proj2 (prioritize_reorders
                            ["PAWEL"; "MARCIN"; "TOMASZ"; "ECHO"] "TOMASZ"))
              Hin) as (j & _ & _ & Hj).
  by exists j.
Defined.

Section SimRun.
Import Sim.

Implicit Types (s : State) (advisor : Advisor) (q loc : string).

(** *** What the helper functions leave alone *)

Lemma sim_getData_frame ep q s :
  queue (snd (getData ep q s)) = queue s ∧
  visitedCities (kb (snd (getData ep q s))) = visitedCities (kb s) ∧
  visitedPeople (kb (snd (getData ep q s))) = visitedPeople (kb s) ∧
  testedLocations (kb (snd (getData ep q s))) = testedLocations (kb s).
Proof.
  unfold getData. simpl. case_decide; [done|].
  destruct ep; simpl;
    (destruct (_ !! _) as [names|]; simpl; [destruct (0 <? length names)|]);
    done.
Qed.

Lemma sim_getData_some ep q s names :
  fst (getData ep q s) = Some names →
  match ep with
  | people => SIMULATED_DATA_people !! JS.toUpperCase q
  | places => SIMULATED_DATA_places !! JS.toUpperCase q
  end = Some names ∧
  failedQueries (kb (snd (getData ep q s))) = failedQueries (kb s).
Proof.
  unfold getData. simpl. case_decide; [done|].
  destruct ep; simpl;
    (destruct (_ !! _) as [names'|]; simpl;
     [destruct (0 <? length names')|]); simpl; try done;
    by intros [= ->].
Qed.

Lemma sim_testLocation_frame loc s :
  queue (snd (testLocation loc s)) = queue s ∧
  visitedCities (kb (snd (testLocation loc s))) = visitedCities (kb s) ∧
  visitedPeople (kb (snd (testLocation loc s))) = visitedPeople (kb s) ∧
  failedQueries (kb (snd (testLocation loc s))) = failedQueries (kb s) ∧
  testedLocations (kb s) ⊆ testedLocations (kb (snd (testLocation loc s))).
Proof. unfold testLocation. repeat case_decide; simpl; set_solver. Qed.

(** *** The queue invariant *)

Lemma sim_queue_ok_frame s s' :
  queue s' = queue s →
  visitedCities (kb s') = visitedCities (kb s) →
  visitedPeople (kb s') = visitedPeople (kb s) →
  sim_queue_ok s → sim_queue_ok s'.
Proof.
  intros Hq Hc Hp (Hnd & Hm & Hu). split; [by rewrite Hq|]. split.
  - intros n Hn. rewrite Hq in Hn. specialize (Hm n Hn).
    unfold sim_marked in *. destruct (type n); congruence.
  - intros n Hn. rewrite Hq in Hn. by apply Hu.
Qed.

Lemma sim_queue_ok_push n s s' :
  queue s' = queue s ++ [n] →
  visitedCities (kb s) ⊆ visitedCities (kb s') →
  visitedPeople (kb s) ⊆ visitedPeople (kb s') →
  ¬ sim_marked s n → sim_marked s' n → n ∈ sim_universe →
  sim_queue_ok s → sim_queue_ok s'.
Proof.
  intros Hq Hc Hp Hfresh Hnew Hknown (Hnd & Hm & Hu). split; [|split].
  - rewrite Hq. apply NoDup_app. split; [done|]. split; [|apply NoDup_singleton].
    intros x Hx ->%list_elem_of_singleton. by apply Hfresh, Hm.
  - intros x Hx. rewrite Hq in Hx.
    apply elem_of_app in Hx as [Hx | ->%list_elem_of_singleton]; [|done].
    specialize (Hm x Hx). unfold sim_marked in *.
    destruct (type x); [by apply Hc | by apply Hp].
  - intros x Hx. rewrite Hq in Hx.
    apply elem_of_app in Hx as [Hx | ->%list_elem_of_singleton]; [|done].
    by apply Hu.
Qed.

Lemma sim_enqueueCity_ok c s :
  mkNode city c ∈ sim_universe →
  sim_queue_ok s → sim_queue_ok (enqueueCity c s).
Proof.
  intros Hc Hs. unfold enqueueCity. case_decide as Hv; [done|].
  apply (sim_queue_ok_push (mkNode city c) s); simpl; try done.
  - apply union_subseteq_r.
  - unfold sim_marked. simpl. apply elem_of_union_l. by apply elem_of_singleton.
Qed.

Lemma sim_enqueuePerson_ok p s :
  mkNode person p ∈ sim_universe →
  sim_queue_ok s → sim_queue_ok (enqueuePerson p s).
Proof.
  intros Hp Hs. unfold enqueuePerson. case_decide as Hv; [done|].
  apply (sim_queue_ok_push (mkNode person p) s); simpl; try done.
  - apply union_subseteq_r.
  - unfold sim_marked. simpl. apply elem_of_union_l. by apply elem_of_singleton.
Qed.

Lemma sim_forPeople_ok ps s :
  (∀ p, p ∈ ps → mkNode person p ∈ sim_universe) →
  sim_queue_ok s → sim_queue_ok (forPeople ps s).
Proof.
  revert s. induction ps as [|p ps IH]; intros s Hps Hs; simpl; [done|].
  apply IH; [intros x Hx; apply Hps; by right|].
  apply sim_enqueuePerson_ok; [apply Hps; by left | done].
Qed.

Lemma sim_forPlaces_ok ai ps s :
  (∀ p, p ∈ ps → mkNode city p ∈ sim_universe) →
  sim_queue_ok s → sim_queue_ok (snd (forPlaces ai ps s)).
Proof.
  revert s. induction ps as [|p ps IH]; intros s Hps Hs; simpl; [done|].
  assert (∀ x, x ∈ ps → mkNode city x ∈ sim_universe) as Hps'
    by (intros x Hx; apply Hps; by right).
  destruct (negb _ && shouldTestLocation p s); [|by apply IH].
  destruct (sim_testLocation_frame p s) as (Hq & Hc & Hp & _).
  destruct (testLocation p s) as [[] s1]; simpl in *.
  - by apply (sim_queue_ok_frame s).
  - apply IH; [done|]. apply sim_enqueueCity_ok; [apply Hps; by left|].
    by apply (sim_queue_ok_frame s).
Qed.

Lemma sim_processNode_ok advisor current s :
  sim_queue_ok s → sim_queue_ok (snd (processNode advisor current s)).
Proof.
  intros Hs. unfold processNode. destruct (type current).
  - destruct (sim_getData_frame places (value current) s) as (Hq & Hc & Hp & _).
    pose proof (sim_getData_some places (value current) s) as Hsome.
    destruct (getData places (value current) s) as [[names|] s1];
      simpl in *; [|by apply (sim_queue_ok_frame s)].
    destruct (0 <? length names); simpl; [|by apply (sim_queue_ok_frame s)].
    destruct (Hsome names eq_refl) as [Htable _].
    pose proof (sim_askModel_state advisor
                  (setCityPeople (value current) names s1)) as Ha.
    destruct (askModel _ _) as [nextTarget s3]; simpl in *. subst s3.
    apply sim_forPeople_ok; [|by apply (sim_queue_ok_frame s)].
    intros p Hin.
    apply sim_prioritize_subset in Hin.
    pose proof (sim_places_names _ _ Htable) as Hall. simpl in Hall.
    rewrite Forall_forall in Hall. by apply Hall.
  - destruct (sim_getData_frame people (value current) s) as (Hq & Hc & Hp & _).
    pose proof (sim_getData_some people (value current) s) as Hsome.
    destruct (getData people (value current) s) as [[names|] s1];
      simpl in *; [|by apply (sim_queue_ok_frame s)].
    destruct (0 <? length names); simpl; [|by apply (sim_queue_ok_frame s)].
    destruct (Hsome names eq_refl) as [Htable _].
    pose proof (sim_people_names _ _ Htable) as Hall. simpl in Hall.
    rewrite Forall_forall in Hall.
    assert (∀ x, x ∈ names → mkNode city x ∈ sim_universe) as Hknown
      by (intros x Hx; by apply Hall).
    pose proof (sim_askModel_state advisor
                  (setPeopleLocations (value current) names s1)) as Ha.
    destruct (askModel _ _) as [nextLocation s3]; simpl in *. subst s3.
    set (s3 := record AskModel _).
    assert (sim_queue_ok s3) as Hs3 by (by apply (sim_queue_ok_frame s)).
    destruct (JS.arrayIncludes names _) eqn:Hinc; simpl;
      [|by apply sim_forPlaces_ok].
    destruct (shouldTestLocation _ s3); [|by apply sim_forPlaces_ok].
    apply arrayIncludes_true in Hinc.
    destruct (sim_testLocation_frame (JS.toUpperCase nextLocation) s3)
      as (Hq4 & Hc4 & Hp4 & _).
    destruct (testLocation _ s3) as [[] s4]; simpl in *.
    + by apply (sim_queue_ok_frame s3).
    + apply sim_forPlaces_ok; [done|].
      apply sim_enqueueCity_ok; [by apply Hknown|].
      by apply (sim_queue_ok_frame s3).
Qed.

Lemma sim_drain_ok fuel advisor i s :
  sim_queue_ok s → sim_queue_ok (snd (drain fuel advisor i s)).
Proof.
  revert i s. induction fuel as [|fuel IH]; intros i s Hs; simpl.
  - by destruct (queue s !! i).
  - destruct (queue s !! i) as [current|]; simpl; [|done].
    pose proof (sim_processNode_ok advisor current s Hs) as Hp.
    destruct (processNode advisor current s) as [[c|] s1]; simpl in *; [done|].
    by apply IH.
Qed.

Lemma sim_seed_ok ai s :
  queue s = [] → sim_queue_ok (seed (JS.toUpperCase ai) s).
Proof.
  intros Hq. rewrite sim_seed_fallthrough. split; [|split]; simpl; rewrite Hq.
  - compute_done.
  - intros n Hn. unfold sim_marked.
    repeat (apply elem_of_cons in Hn as [-> | Hn]); simpl;
      [set_solver | set_solver | by apply elem_of_nil in Hn].
  - intros n Hn.
    repeat (apply elem_of_cons in Hn as [-> | Hn]);
      [compute_done | compute_done | by apply elem_of_nil in Hn].
Qed.

Lemma sim_agentLoop_cases fuel dataFile advisor k :
  (match dataFile with
   | Some content => JS.truthy (JS.trim content) = false
   | None => True
   end ∧
   agentLoop fuel dataFile advisor k = (Threw, mkState k [] [])) ∨
  (∃ content s,
     dataFile = Some content ∧ JS.truthy (JS.trim content) = true ∧
     agentLoop fuel dataFile advisor k = drain fuel advisor 0 s ∧
     queue s = [mkNode city CITIES_GDANSK; mkNode city CITIES_POZNAN] ∧
     log s = [AskModel] ∧
     sim_queue_ok s ∧
     testedLocations (kb s) = testedLocations k ∧
     failedQueries (kb s) = failedQueries k).
Proof.
  unfold agentLoop, getText. destruct dataFile as [content|]; [|by left].
  destruct (JS.truthy (JS.trim content)) eqn:Hc; [right | by left].
  set (s0 := setContext content _).
  pose proof (sim_askModel_state advisor s0) as Ha.
  destruct (askModel advisor s0) as [ai s1]; simpl in Ha. subst s1.
  exists content, (seed (JS.toUpperCase ai) (record AskModel s0)).
  split; [done|]. split; [done|]. split; [done|].
  split; [by rewrite sim_seed_fallthrough|].
  split; [by rewrite sim_seed_log|].
  split; [by apply sim_seed_ok|].
  by rewrite sim_seed_fallthrough.
Qed.

(** *** Termination *)

Lemma sim_queue_bound s : sim_queue_ok s → length (queue s) ≤ 14.
Proof.
  intros (Hnd & _ & Hu).
  change 14 with (length sim_universe).
  by apply submseteq_length, NoDup_submseteq.
Qed.

Lemma sim_drain_terminates fuel advisor i s :
  sim_queue_ok s → 14 ≤ fuel + i →
  fst (drain fuel advisor i s) ≠ OutOfFuel.
Proof.
  revert i s. induction fuel as [|fuel IH]; intros i s Hs Hfuel; simpl.
  - destruct (queue s !! i) eqn:Hi; [|done].
    apply lookup_lt_Some in Hi. apply sim_queue_bound in Hs. simpl in Hfuel. lia.
  - destruct (queue s !! i) as [current|]; [|done].
    pose proof (sim_processNode_ok advisor current s Hs) as Hp.
    destruct (processNode advisor current s) as [[c|] s1]; simpl in *; [done|].
    apply IH; [done | lia].
Qed.

End SimRun.

Section SimTests.
Import Sim.

Implicit Types (s : State) (advisor : Advisor) (q loc : string).

Lemma sim_spares_snoc l e :
  sim_spares_initial (l ++ [e]) ↔
  sim_spares_initial l ∧
  match e with Tested t _ => t ∉ INITIAL_CITIES | _ => True end.
Proof. unfold sim_spares_initial. by rewrite Forall_app, Forall_singleton. Qed.

Lemma sim_getData_spares ep q s :
  sim_spares_initial (log s) →
  sim_spares_initial (log (snd (getData ep q s))).
Proof.
  intros Hs. destruct (sim_getData_log ep q s) as [-> | ->].
  - by apply sim_spares_snoc.
  - change [CallGetData ep q; TableLookup ep q]
      with ([CallGetData ep q] ++ [TableLookup ep q]).
    rewrite app_assoc. apply sim_spares_snoc. split; [|done].
    by apply sim_spares_snoc.
Qed.

Lemma sim_shouldTestLocation_true loc s :
  shouldTestLocation loc s = true →
  (JS.toUpperCase loc ∉ testedLocations (kb s)) ∧ loc ∉ INITIAL_CITIES.
Proof.
  unfold shouldTestLocation. rewrite andb_true_iff, !negb_true_iff.
  by rewrite !bool_decide_eq_false.
Qed.

Lemma sim_testLocation_spares loc s :
  loc ∉ INITIAL_CITIES →
  sim_spares_initial (log s) →
  sim_spares_initial (log (snd (testLocation loc s))).
Proof.
  intros Hl Hs. rewrite sim_testLocation_log. by apply sim_spares_snoc.
Qed.

Lemma sim_forPlaces_spares ai ps s :
  sim_spares_initial (log s) →
  sim_spares_initial (log (snd (forPlaces ai ps s))).
Proof.
  revert s. induction ps as [|p ps IH]; intros s Hs; simpl; [done|].
  destruct (negb _); simpl; [|by apply IH].
  destruct (shouldTestLocation p s) eqn:Hshould; [|by apply IH].
  apply sim_shouldTestLocation_true in Hshould as [_ Hp].
  pose proof (sim_testLocation_spares p s Hp Hs) as Ht.
  destruct (testLocation p s) as [[] s1]; simpl in *; [done|].
  apply IH. by rewrite sim_enqueueCity_log.
Qed.

Lemma sim_processNode_spares advisor current s :
  sim_spares_initial (log s) →
  sim_spares_initial (log (snd (processNode advisor current s))).
Proof.
  intros Hs. unfold processNode. destruct (type current).
  - pose proof (sim_getData_spares places (value current) s Hs) as Hg.
    destruct (getData places (value current) s) as [[names|] s1];
      simpl in *; [|done].
    destruct (0 <? length names); simpl; [|done].
    pose proof (sim_askModel_state advisor
                  (setCityPeople (value current) names s1)) as Ha.
    destruct (askModel _ _) as [nextTarget s3]; simpl in *. subst s3.
    rewrite sim_forPeople_log. simpl. by apply sim_spares_snoc.
  - pose proof (sim_getData_spares people (value current) s Hs) as Hg.
    destruct (getData people (value current) s) as [[names|] s1];
      simpl in *; [|done].
    destruct (0 <? length names); simpl; [|done].
    pose proof (sim_askModel_state advisor
                  (setPeopleLocations (value current) names s1)) as Ha.
    destruct (askModel _ _) as [nextLocation s3]; simpl in *. subst s3.
    set (s3 := record AskModel _).
    assert (sim_spares_initial (log s3)) as Hs3 by (by apply sim_spares_snoc).
    destruct (JS.arrayIncludes _ _); simpl; [|by apply sim_forPlaces_spares].
    destruct (shouldTestLocation _ s3) eqn:Hshould;
      [|by apply sim_forPlaces_spares].
    apply sim_shouldTestLocation_true in Hshould as [_ Hai].
    pose proof (sim_testLocation_spares _ s3 Hai Hs3) as Ht.
    destruct (testLocation _ s3) as [[] s4]; simpl in *; [done|].
    apply sim_forPlaces_spares. by rewrite sim_enqueueCity_log.
Qed.

Lemma sim_drain_spares fuel advisor i s :
  sim_spares_initial (log s) →
  sim_spares_initial (log (snd (drain fuel advisor i s))).
Proof.
  revert i s. induction fuel as [|fuel IH]; intros i s Hs; simpl.
  - by destruct (queue s !! i).
  - destruct (queue s !! i) as [current|]; simpl; [|done].
    pose proof (sim_processNode_spares advisor current s Hs) as Hp.
    destruct (processNode advisor current s) as [[c|] s1]; simpl in *; [done|].
    by apply IH.
Qed.

(** *** What a turn of the loop can return *)

Lemma sim_testLocation_true loc s :
  fst (testLocation loc s) = true →
  JS.toUpperCase loc = CORRECT_ANSWER ∧
  (CORRECT_ANSWER ∉ testedLocations (kb s)) ∧
  CORRECT_ANSWER ∈ testedLocations (kb (snd (testLocation loc s))).
Proof.
  unfold testLocation. case_decide as Ht; simpl; [done|].
  case_decide as Heq; simpl; [|done]. intros _. rewrite Heq in Ht.
  split; [done|]. split; [done|].
  apply elem_of_union_l. by apply elem_of_singleton.
Qed.

Lemma sim_forPlaces_some ai ps s c :
  fst (forPlaces ai ps s) = Some c →
  c ∈ ps ∧ JS.toUpperCase c = CORRECT_ANSWER ∧
  (CORRECT_ANSWER ∉ testedLocations (kb s)) ∧
  CORRECT_ANSWER ∈ testedLocations (kb (snd (forPlaces ai ps s))).
Proof.
  revert s. induction ps as [|p ps IH]; intros s; simpl; [done|].
  destruct (negb _ && shouldTestLocation p s).
  - pose proof (sim_testLocation_true p s) as Ht.
    destruct (sim_testLocation_frame p s) as (_ & _ & _ & _ & Hsub).
    destruct (testLocation p s) as [[] s1]; simpl in *.
    + intros [= <-]. destruct Ht as (? & ? & ?); [done|].
      split; [by left | done].
    + intros Hc. destruct (IH _ Hc) as (Hin & Hup & Hfresh & Hdone).
      split; [by right|]. split; [done|]. split; [|done].
      intros Hbad. apply Hfresh. unfold enqueueCity.
      case_decide; simpl; by apply Hsub.
  - intros Hc. destruct (IH _ Hc) as (Hin & Hup & Hfresh & Hdone).
    split; [by right | done].
Qed.

Lemma sim_processNode_some advisor current s c :
  fst (processNode advisor current s) = Some c →
  c = CORRECT_ANSWER ∧
  (CORRECT_ANSWER ∉ testedLocations (kb s)) ∧
  CORRECT_ANSWER ∈ testedLocations (kb (snd (processNode advisor current s))).
Proof.
  unfold processNode. destruct (type current).
  - destruct (getData places (value current) s) as [[names|] s1];
      simpl; [|done].
    destruct (0 <? length names); simpl; [|done].
    by destruct (askModel _ _).
  - destruct (sim_getData_frame people (value current) s) as (_ & _ & _ & Ht).
    pose proof (sim_getData_some people (value current) s) as Hsome.
    destruct (getData people (value current) s) as [[names|] s1];
      simpl in *; [|done].
    destruct (0 <? length names); simpl; [|done].
    destruct (Hsome names eq_refl) as [Htable _].
    pose proof (sim_people_names _ _ Htable) as Hall. simpl in Hall.
    rewrite Forall_forall in Hall.
    pose proof (sim_askModel_state advisor
                  (setPeopleLocations (value current) names s1)) as Ha.
    destruct (askModel _ _) as [nextLocation s3]; simpl in *. subst s3.
    set (s3 := record AskModel _).
    assert (testedLocations (kb s3) = testedLocations (kb s)) as Ht3 by done.
    assert (∀ ai s', testedLocations (kb s3) ⊆ testedLocations (kb s') →
              fst (forPlaces ai names s') = Some c →
              c = CORRECT_ANSWER ∧
              (CORRECT_ANSWER ∉ testedLocations (kb s)) ∧
              CORRECT_ANSWER ∈ testedLocations (kb (snd (forPlaces ai names s'))))
      as Hloop.
    { intros ai s' Hsub Hc.
      destruct (sim_forPlaces_some ai names s' c Hc) as (Hin & Hup & Hfr & Hd).
      destruct (Hall c Hin) as [_ Hupper]. rewrite Hupper in Hup.
      split; [done|]. split; [|done].
      intros Hbad. apply Hfr, Hsub. by rewrite Ht3. }
    destruct (JS.arrayIncludes _ _ && shouldTestLocation _ s3);
      [|by apply Hloop].
    pose proof (sim_testLocation_true (JS.toUpperCase nextLocation) s3) as Hai.
    destruct (sim_testLocation_frame (JS.toUpperCase nextLocation) s3)
      as (_ & _ & _ & _ & Hsub).
    destruct (testLocation _ s3) as [[] s4]; simpl in *.
    + intros [= <-]. destruct Hai as (Hup & Hfr & Hd); [done|].
      rewrite toUpperCase_idem in Hup. split; [done|].
      split; [by rewrite <- Ht3 | done].
    + apply Hloop. unfold enqueueCity. case_decide; simpl; [done|].
      etrans; [exact Hsub | done].
Qed.

Lemma sim_drain_returns fuel advisor i s c :
  fst (drain fuel advisor i s) = Returned c →
  (c = CORRECT_ANSWER ∧
   CORRECT_ANSWER ∈ testedLocations (kb (snd (drain fuel advisor i s)))) ∨
  (c = "No data found" ∧
   length (queue (snd (drain fuel advisor i s))) ≤ i + fuel).
Proof.
  revert i s. induction fuel as [|fuel IH]; intros i s; simpl.
  - destruct (queue s !! i) eqn:Hi; simpl; [done|].
    intros [= <-]. right. apply lookup_ge_None in Hi. split; [done|lia].
  - destruct (queue s !! i) as [current|] eqn:Hi; simpl.
    + pose proof (sim_processNode_some advisor current s) as Hp.
      destruct (processNode advisor current s) as [[r|] s1]; simpl in *.
      * intros [= <-]. left. destruct (Hp r eq_refl) as (? & _ & ?). done.
      * intros Hc. destruct (IH _ _ Hc) as [? | [? ?]]; [by left|].
        right. split; [done|lia].
    + intros [= <-]. right. apply lookup_ge_None in Hi. split; [done|lia].
Qed.

Lemma sim_drain_never_throws fuel advisor i s :
  fst (drain fuel advisor i s) ≠ Threw.
Proof.
  revert i s. induction fuel as [|fuel IH]; intros i s; simpl.
  - by destruct (queue s !! i).
  - destruct (queue s !! i) as [current|]; [|done].
    destruct (processNode advisor current s) as [[r|] s1]; [done | apply IH].
Qed.

(** *** A knowledge base in which OLSZTYN is already tested *)

Lemma sim_forPeople_tested ps s :
  testedLocations (kb (forPeople ps s)) = testedLocations (kb s).
Proof.
  revert s. induction ps as [|p ps IH]; intros s; simpl; [done|].
  rewrite IH. unfold enqueuePerson. by case_decide.
Qed.

Lemma sim_processNode_spent advisor current s :
  CORRECT_ANSWER ∈ testedLocations (kb s) →
  fst (processNode advisor current s) = None ∧
  CORRECT_ANSWER ∈ testedLocations (kb (snd (processNode advisor current s))).
Proof.
  intros Hspent.
  pose proof (sim_processNode_some advisor current s) as Hsome.
  destruct (fst (processNode advisor current s)) as [c|] eqn:Hc.
  - destruct (Hsome c eq_refl) as (_ & Hfresh & _). done.
  - split; [done|]. clear Hsome Hc.
    assert (∀ ai ps s', CORRECT_ANSWER ∈ testedLocations (kb s') →
              CORRECT_ANSWER ∈ testedLocations (kb (snd (forPlaces ai ps s'))))
      as Hloop.
    { intros ai ps. induction ps as [|p ps IH]; intros s' Hs'; simpl; [done|].
      destruct (negb _ && shouldTestLocation p s'); [|by apply IH].
      destruct (sim_testLocation_frame p s') as (_ & _ & _ & _ & Hsub).
      destruct (testLocation p s') as [[] s1]; simpl in *; [by apply Hsub|].
      apply IH. unfold enqueueCity. case_decide; simpl; by apply Hsub. }
    unfold processNode. destruct (type current).
    + destruct (sim_getData_frame places (value current) s) as (_ & _ & _ & Ht).
      destruct (getData places (value current) s) as [[names|] s1];
        simpl in *; [|by rewrite Ht].
      destruct (0 <? length names); simpl; [|by rewrite Ht].
      pose proof (sim_askModel_state advisor
                    (setCityPeople (value current) names s1)) as Ha.
      destruct (askModel _ _) as [nextTarget s3]; simpl in *. subst s3.
      rewrite sim_forPeople_tested. simpl. by rewrite Ht.
    + destruct (sim_getData_frame people (value current) s) as (_ & _ & _ & Ht).
      destruct (getData people (value current) s) as [[names|] s1];
        simpl in *; [|by rewrite Ht].
      destruct (0 <? length names); simpl; [|by rewrite Ht].
      pose proof (sim_askModel_state advisor
                    (setPeopleLocations (value current) names s1)) as Ha.
      destruct (askModel _ _) as [nextLocation s3]; simpl in *. subst s3.
      set (s3 := record AskModel _).
      assert (CORRECT_ANSWER ∈ testedLocations (kb s3)) as Hs3
        by (simpl; by rewrite Ht).
      destruct (JS.arrayIncludes _ _ && shouldTestLocation _ s3);
        [|by apply Hloop].
      destruct (sim_testLocation_frame (JS.toUpperCase nextLocation) s3)
        as (_ & _ & _ & _ & Hsub).
      destruct (testLocation _ s3) as [[] s4]; simpl in *; [by apply Hsub|].
      apply Hloop. unfold enqueueCity. case_decide; simpl; by apply Hsub.
Qed.

Lemma sim_drain_spent fuel advisor i s c :
  CORRECT_ANSWER ∈ testedLocations (kb s) →
  fst (drain fuel advisor i s) = Returned c → c = "No data found".
Proof.
  revert i s. induction fuel as [|fuel IH]; intros i s Hspent; simpl.
  - destruct (queue s !! i); simpl; [done|]. by intros [= <-].
  - destruct (queue s !! i) as [current|]; simpl; [|by intros [= <-]].
    destruct (sim_processNode_spent advisor current s Hspent) as [Hnone Hs1].
    destruct (processNode advisor current s) as [r s1]; simpl in *. subst r.
    by apply IH.
Qed.

End SimTests.

(** X9.  In every run of [agentLoop], whatever the knowledge base it starts
    from and whatever the advisor answers, the queue never holds the same
    node (type and exact name) twice, every queued node is in the visited
    set of its type, and the queue holds at most the fourteen nodes that the
    starting cities and [SIMULATED_DATA] name. *)
Theorem agentLoop_queue_no_duplicates fuel dataFile (advisor : Sim.Advisor) k :
  NoDup (Sim.queue (snd (Sim.agentLoop fuel dataFile advisor k))) ∧
  (∀ n, n ∈ Sim.queue (snd (Sim.agentLoop fuel dataFile advisor k)) →
        sim_marked (snd (Sim.agentLoop fuel dataFile advisor k)) n) ∧
  length (Sim.queue (snd (Sim.agentLoop fuel dataFile advisor k))) ≤ 14.
Proof.
  assert (sim_queue_ok (snd (Sim.agentLoop fuel dataFile advisor k))) as Hok.
  { destruct (sim_agentLoop_cases fuel dataFile advisor k)
      as [[_ ->] | (content & s & _ & _ & -> & _ & _ & Hs & _)].
    - split; [apply NoDup_nil_2|].
      split; intros n Hn; by apply elem_of_nil in Hn.
    - by apply sim_drain_ok. }
  split; [apply Hok|]. split; [apply Hok|]. by apply sim_queue_bound.
Qed.

(** X10.  [agentLoop] terminates: whatever the knowledge base it starts
    from, the context file and the advisor, its loop makes at most fourteen
    turns. *)
Theorem agentLoop_terminates fuel dataFile (advisor : Sim.Advisor) k :
  14 ≤ fuel →
  fst (Sim.agentLoop fuel dataFile advisor k) ≠ Sim.OutOfFuel.
Proof.
  intros Hfuel.
  destruct (sim_agentLoop_cases fuel dataFile advisor k)
    as [[_ ->] | (content & s & _ & _ & -> & _ & _ & Hs & _)]; [done|].
  apply sim_drain_terminates; [done | lia].
Qed.

Lemma agentLoop_terminates_witness :
  14 ≤ 14 ∧
  fst (Sim.agentLoop 14 (Some "case notes")
         (fun _ => Sim.ModelContent (Some "ghost")) Sim.knowledgeBase)
  ≠ Sim.OutOfFuel.
Proof.
  split; [lia|].
  apply (agentLoop_terminates 14 (Some "case notes")
           (fun _ => Sim.ModelContent (Some "ghost")) Sim.knowledgeBase).
  lia.
Defined.

(** X11.  In every run of [agentLoop] no member of [INITIAL_CITIES], by the
    exact spelling it has there (Gdansk, Poznan), is handed to
    [testLocation]. *)
Theorem agentLoop_never_tests_initial_spelling fuel dataFile
    (advisor : Sim.Advisor) k t :
  t ∈ Sim.testedAt (Sim.log (snd (Sim.agentLoop fuel dataFile advisor k))) →
  t ∉ Sim.INITIAL_CITIES.
Proof.
  assert (sim_spares_initial
            (Sim.log (snd (Sim.agentLoop fuel dataFile advisor k)))) as Hs.
  { destruct (sim_agentLoop_cases fuel dataFile advisor k)
      as [[_ ->] | (content & s & _ & _ & -> & _ & Hlog & _)];
      [apply Forall_nil_2|].
    apply sim_drain_spares. rewrite Hlog. by repeat constructor. }
  intros Ht. unfold sim_spares_initial in Hs. rewrite Forall_forall in Hs.
  unfold Sim.testedAt in Ht. apply list_elem_of_omap in Ht as [e [He Heq]].
  specialize (Hs e He). destruct e; by simplify_eq.
Qed.

Lemma agentLoop_never_tests_initial_spelling_witness :
  ("GDANSK" ∈ Sim.testedAt
     (Sim.log (snd (Sim.agentLoop 5 (Some "case notes") sim_failing
                      Sim.knowledgeBase)))) ∧
  "GDANSK" ∉ Sim.INITIAL_CITIES.
Proof.
  split; [compute_done|].
  apply (agentLoop_never_tests_initial_spelling 5 (Some "case notes")
           sim_failing Sim.knowledgeBase "GDANSK").
  compute_done.
Defined.



(** X13.  The knowledge base is global and [agentLoop] does not reset it: a
    call of [agentLoop] on the knowledge base that a successful call has
    left behind returns the sentinel "No data found", whatever the advisor
    answers, because OLSZTYN counts as tested. *)
Theorem agentLoop_second_call_finds_nothing fuel1 dataFile1
    (advisor1 : Sim.Advisor) k fuel2 content2 (advisor2 : Sim.Advisor) :
  fst (Sim.agentLoop fuel1 dataFile1 advisor1 k) = Sim.Returned "OLSZTYN" →
  JS.truthy (JS.trim content2) = true →
  14 ≤ fuel2 →
  fst (Sim.agentLoop fuel2 (Some content2) advisor2
         (Sim.kb (snd (Sim.agentLoop fuel1 dataFile1 advisor1 k))))
  = Sim.Returned "No data found".
Proof.
  intros Hfirst Hcontent Hfuel.
  assert (Sim.CORRECT_ANSWER ∈ Sim.testedLocations
            (Sim.kb (snd (Sim.agentLoop fuel1 dataFile1 advisor1 k))))
    as Hspent.
  { destruct (sim_agentLoop_cases fuel1 dataFile1 advisor1 k)
      as [[_ Heq] | (content & s & _ & _ & Heq & _)];
      rewrite Heq in Hfirst |- *; [done|].
    by destruct (sim_drain_returns fuel1 advisor1 0 s _ Hfirst)
      as [[_ Hin] | [Hbad _]]. }
  set (k1 := Sim.kb _) in *.
  destruct (sim_agentLoop_cases fuel2 (Some content2) advisor2 k1)
    as [[Hblank _] | (content & s & _ & _ & -> & _ & _ & Hs & Ht & _)];
    [congruence|].
  rewrite <- Ht in Hspent.
  pose proof (sim_drain_terminates fuel2 advisor2 0 s Hs) as Hterm.
  pose proof (sim_drain_never_throws fuel2 advisor2 0 s) as Hthrow.
  pose proof (sim_drain_spent fuel2 advisor2 0 s) as Hret.
  destruct (fst (Sim.drain fuel2 advisor2 0 s)) as [c| |].
  - by rewrite (Hret c Hspent eq_refl).
  - done.
  - destruct Hterm; [lia | done].
Qed.

Lemma agentLoop_second_call_finds_nothing_witness :
  let first := Sim.agentLoop 5 (Some "case notes") sim_failing
                 Sim.knowledgeBase in
  fst first = Sim.Returned "OLSZTYN" ∧
  fst (Sim.agentLoop 14 (Some "case notes") sim_failing (Sim.kb (snd first)))
  = Sim.Returned "No data found".
Proof.
  split; [by vm_compute|].
  apply (agentLoop_second_call_finds_nothing 5 (Some "case notes")
           sim_failing Sim.knowledgeBase 14 "case notes" sim_failing);
    [by vm_compute | reflexivity | lia].
Defined.

Section SimCache.
Import Sim.

Implicit Types (s : State) (advisor : Advisor) (q loc : string).

Lemma sim_forPlaces_failed ai ps s :
  failedQueries (kb (snd (forPlaces ai ps s))) = failedQueries (kb s).
Proof.
  revert s. induction ps as [|p ps IH]; intros s; simpl; [done|].
  destruct (negb _ && shouldTestLocation p s); [|by apply IH].
  destruct (sim_testLocation_frame p s) as (_ & _ & _ & Hf & _).
  destruct (testLocation p s) as [[] s1]; simpl in *; [done|].
  rewrite IH. destruct (sim_keeps_enqueueCity p s1) as [-> _]. done.
Qed.

Lemma sim_processNode_cache advisor current s :
  current ∈ sim_universe →
  failedQueries (kb s) = ∅ →
  failedQueries (kb (snd (processNode advisor current s))) = ∅.
Proof.
  intros Hknown Hf.
  pose proof sim_universe_resolves as Hall. rewrite Forall_forall in Hall.
  destruct (Hall current Hknown) as (names & Htable & Hlen).
  assert (value current ∉ failedQueries (kb s)) as Hq
    by (rewrite Hf; apply not_elem_of_empty).
  unfold processNode. destruct (type current); simpl in Htable.
  - rewrite (sim_getData_hit places (value current) s names Hq Htable Hlen).
    rewrite Hlen.
    pose proof (sim_askModel_state advisor
      (setCityPeople (value current) names
         (record (TableLookup places (value current))
            (record (CallGetData places (value current)) s)))) as Ha.
    destruct (askModel _ _) as [nextTarget s3]; simpl in *. subst s3.
    by destruct (sim_keeps_forPeople
                   (prioritize names (JS.toUpperCase nextTarget))
                   (record AskModel
                      (setCityPeople (value current) names
                         (record (TableLookup places (value current))
                            (record (CallGetData places (value current)) s)))))
      as [-> _].
  - rewrite (sim_getData_hit people (value current) s names Hq Htable Hlen).
    rewrite Hlen.
    set (s2 := setPeopleLocations _ _ _).
    pose proof (sim_askModel_state advisor s2) as Ha.
    destruct (askModel advisor s2) as [nextLocation s3]; simpl in Ha. subst s3.
    set (s3 := record AskModel s2).
    destruct (JS.arrayIncludes _ _ && shouldTestLocation _ s3);
      [|by rewrite sim_forPlaces_failed].
    destruct (sim_testLocation_frame (JS.toUpperCase nextLocation) s3)
      as (_ & _ & _ & Hf4 & _).
    destruct (testLocation _ s3) as [[] s4]; simpl in *; [by rewrite Hf4|].
    rewrite sim_forPlaces_failed.
    destruct (sim_keeps_enqueueCity (JS.toUpperCase nextLocation) s4)
      as [-> _].
    by rewrite Hf4.
Qed.

Lemma sim_drain_cache fuel advisor i s :
  sim_queue_ok s →
  failedQueries (kb s) = ∅ →
  failedQueries (kb (snd (drain fuel advisor i s))) = ∅.
Proof.
  revert i s. induction fuel as [|fuel IH]; intros i s Hs Hf; simpl.
  - by destruct (queue s !! i).
  - destruct (queue s !! i) as [current|] eqn:Hi; simpl; [|done].
    assert (current ∈ sim_universe) as Hknown.
    { destruct Hs as (_ & _ & Hu). apply Hu.
      by apply list_elem_of_lookup_2 in Hi. }
    pose proof (sim_processNode_ok advisor current s Hs) as Hok.
    pose proof (sim_processNode_cache advisor current s Hknown Hf) as Hc.
    destruct (processNode advisor current s) as [[c|] s1]; simpl in *; [done|].
    by apply IH.
Qed.

(** *** [trim] *)





End SimCache.

(** X14.  The simulated data is closed under the lookups of the search:
    every name that a table lists can itself be looked up.  So a run of
    [agentLoop] that starts with an empty [failedQueries] ends with an empty
    [failedQueries], whatever the advisor answers: no query of the run
    fails. *)
Theorem agentLoop_records_no_failure fuel dataFile (advisor : Sim.Advisor) k :
  Sim.failedQueries k = ∅ →
  Sim.failedQueries (Sim.kb (snd (Sim.agentLoop fuel dataFile advisor k))) = ∅.
Proof.
  intros Hk.
  destruct (sim_agentLoop_cases fuel dataFile advisor k)
    as [[_ ->] | (content & s & _ & _ & -> & _ & _ & Hs & _ & Hf)]; [done|].
  apply sim_drain_cache; [done | congruence].
Qed.

Lemma agentLoop_records_no_failure_witness :
  Sim.failedQueries Sim.knowledgeBase = ∅ ∧
  Sim.failedQueries
    (Sim.kb (snd (Sim.agentLoop 14 (Some "case notes")
                    (fun _ => Sim.ModelContent (Some "ghost"))
                    Sim.knowledgeBase))) = ∅.
Proof.
  split; [reflexivity|].
  apply (agentLoop_records_no_failure 14 (Some "case notes")
           (fun _ => Sim.ModelContent (Some "ghost")) Sim.knowledgeBase).
  reflexivity.
Defined.

(** X15.  The seeding of [agentLoop] does not depend on the advisor: the
    upper-cased suggestion is never a member of [INITIAL_CITIES], so for
    every suggestion the queue receives Gdansk and then Poznan, and both are
    marked visited. *)
Theorem seed_ignores_suggestion (aiSuggestion : string) (s : Sim.State) :
  JS.arrayIncludes Sim.INITIAL_CITIES (JS.toUpperCase aiSuggestion) = false ∧
  Sim.queue (Sim.seed (JS.toUpperCase aiSuggestion) s)
  = Sim.queue s ++ [Sim.mkNode Sim.city "Gdansk"; Sim.mkNode Sim.city "Poznan"] ∧
  Sim.visitedCities (Sim.kb (Sim.seed (JS.toUpperCase aiSuggestion) s))
  = {[ "Poznan" ]} ∪ ({[ "Gdansk" ]} ∪ Sim.visitedCities (Sim.kb s)) ∧
  Sim.log (Sim.seed (JS.toUpperCase aiSuggestion) s) = Sim.log s.
Proof.
  split.
  - apply arrayIncludes_false. intros Hin.
    repeat (apply elem_of_cons in Hin as [Hin | Hin]);
      [by apply toUpperCase_neq in Hin ..| by apply elem_of_nil in Hin].
  - rewrite sim_seed_fallthrough. simpl. by rewrite <- app_assoc.
Qed.


